(** * ai.py: checkpointed batch reformatting of novel chapters

    A shallow embedding of [src/ai.py] and the properties of its checkpoint
    store, request worker, batch orchestrator and aggregator.

    Modelling decisions, all visible in the definitions below:
    - a Python [str] is the list of its Unicode code points ([pystr]);
    - a [dict] is a [gmap]; the file system is a finite map from absolute
      paths to the text of regular files, next to the checkpoint file, which
      is kept as the JSON object it holds ([json.dump] followed by [json.load]
      gives the mapping back);
    - the remote endpoint is an oracle: for each scheduled worker, the reply
      every attempt receives.  Sleeping takes time and changes nothing else;
    - the disk is an oracle too: for each attempt that gets as far as its
      output file, whether [open] raises, [write] raises or the text is
      written (a title with a slash names a missing directory, a name can be
      too long, a text can hold what UTF-8 cannot encode, a disk can be
      full);
    - an uncaught Python exception is [None] in [option]; line endings are
      POSIX (a line feed is written as it is);
    - [re.split] with one capturing group returns the text before the first
      heading followed by (heading, body) pairs; that list is the input of
      the orchestrator's loop. *)

From Stdlib Require Import ZArith NArith Ascii String DecimalNat.
From stdpp Require Import gmap list sorting.

Local Open Scope N_scope.

(** ** Python strings *)

Module PyStr.

Definition pychar := N.
Definition pystr := list N.

Definition TAB : pychar := 9.
Definition LF : pychar := 10.
Definition CR : pychar := 13.
Definition SPACE : pychar := 32.
Definition ZERO : pychar := 48.
Definition SLASH : pychar := 47.
Definition BACKSLASH : pychar := 92.
Definition LETTER_n : pychar := 110.

(** Source text of this file is UTF-8; [py] turns a literal into the
    code points Python sees. *)
Fixpoint utf8_decode (bs : list N) : pystr :=
  match bs with
  | [] => []
  | b0 :: r0 =>
    if b0 <? 0x80 then b0 :: utf8_decode r0
    else
      match r0 with
      | [] => []
      | b1 :: r1 =>
        if b0 <? 0xE0 then ((b0 - 0xC0) * 64 + (b1 - 0x80)) :: utf8_decode r1
        else
          match r1 with
          | [] => []
          | b2 :: r2 =>
            if b0 <? 0xF0
            then ((b0 - 0xE0) * 4096 + (b1 - 0x80) * 64 + (b2 - 0x80)) :: utf8_decode r2
            else
              match r2 with
              | [] => []
              | b3 :: r3 =>
                ((b0 - 0xF0) * 262144 + (b1 - 0x80) * 4096
                 + (b2 - 0x80) * 64 + (b3 - 0x80)) :: utf8_decode r3
              end
          end
      end
  end.

Definition py (s : string) : pystr :=
  utf8_decode (map N_of_ascii (list_ascii_of_string s)).

(** [str.isspace] of one character, the set [str.strip()] removes. *)
Definition is_space (c : pychar) : bool :=
  ((9 <=? c) && (c <=? 13)) || ((28 <=? c) && (c <=? 32))
  || (c =? 0x85) || (c =? 0xA0) || (c =? 0x1680)
  || ((0x2000 <=? c) && (c <=? 0x200A))
  || (c =? 0x2028) || (c =? 0x2029) || (c =? 0x202F) || (c =? 0x205F)
  || (c =? 0x3000).

Fixpoint lstrip (s : pystr) : pystr :=
  match s with
  | [] => []
  | c :: r => if is_space c then lstrip r else s
  end.

Definition rstrip (s : pystr) : pystr := rev (lstrip (rev s)).

(** [s.strip()] *)
Definition strip (s : pystr) : pystr := rstrip (lstrip s).

(** [s.replace('\n', ' ')] *)
Definition replace_newlines_by_space (s : pystr) : pystr :=
  map (fun c => if c =? LF then SPACE else c) s.

(** [s.replace('\n', '\\n')]: a line feed becomes backslash, n. *)
Definition escape_newlines (s : pystr) : pystr :=
  flat_map (fun c => if c =? LF then [BACKSLASH; LETTER_n] else [c]) s.

(** [s.startswith(p)] and [s.endswith(p)] *)
Fixpoint startswith (s p : pystr) : bool :=
  match p, s with
  | [], _ => true
  | _ :: _, [] => false
  | a :: p', b :: s' => (a =? b) && startswith s' p'
  end.

Definition endswith (s p : pystr) : bool := startswith (rev s) (rev p).

(** What reading a file opened in text mode returns: universal newlines,
    CR LF and a lone CR both arrive as LF. *)
Fixpoint universal_newlines (s : pystr) : pystr :=
  match s with
  | [] => []
  | c :: r =>
    if c =? CR then
      LF :: match r with
            | c' :: r' => if c' =? LF then universal_newlines r' else universal_newlines r
            | [] => []
            end
    else c :: universal_newlines r
  end.

(** [f.readlines()] on the translated text: lines keep their LF. *)
Fixpoint readlines (s : pystr) : list pystr :=
  match s with
  | [] => []
  | c :: r =>
    if c =? LF then [c] :: readlines r
    else
      match readlines r with
      | [] => [[c]]
      | l :: ls => (c :: l) :: ls
      end
  end.

(** Comparison of [str], by code point, as [sorted] uses it. *)
Fixpoint str_leb (a b : pystr) : bool :=
  match a, b with
  | [], _ => true
  | _ :: _, [] => false
  | x :: a', y :: b' => (x <? y) || ((x =? y) && str_leb a' b')
  end.

Definition str_le (a b : pystr) : Prop := Is_true (str_leb a b).

#[global] Instance str_le_dec : RelDecision str_le.
Proof. intros a b. unfold str_le. apply _. Defined.

(** [sorted(names)] *)
Definition sorted (l : list pystr) : list pystr := merge_sort str_le l.

(** [f"{n:04d}"] for a non-negative [n]: decimal digits, zero-padded on
    the left to a width of 4 (wider numbers keep all their digits). *)
Fixpoint uint_digits (d : Decimal.uint) : pystr :=
  match d with
  | Decimal.Nil => []
  | Decimal.D0 d => 48 :: uint_digits d
  | Decimal.D1 d => 49 :: uint_digits d
  | Decimal.D2 d => 50 :: uint_digits d
  | Decimal.D3 d => 51 :: uint_digits d
  | Decimal.D4 d => 52 :: uint_digits d
  | Decimal.D5 d => 53 :: uint_digits d
  | Decimal.D6 d => 54 :: uint_digits d
  | Decimal.D7 d => 55 :: uint_digits d
  | Decimal.D8 d => 56 :: uint_digits d
  | Decimal.D9 d => 57 :: uint_digits d
  end.

Definition str_of_nat (n : nat) : pystr := uint_digits (Nat.to_uint n).

Definition format_04d (n : nat) : pystr :=
  let s := str_of_nat n in
  replicate (4 - length s)%nat ZERO ++ s.

(** [os.path.join(a, b)] on POSIX. *)
Definition os_path_join (a b : pystr) : pystr :=
  if startswith b [SLASH] then b
  else if bool_decide (a = []) || endswith a [SLASH] then a ++ b
  else a ++ [SLASH] ++ b.

End PyStr.

Import PyStr.

(** ** Configuration (the module-level constants) *)

Definition OUTPUT_DIR : pystr := py "/data/output".
Definition CHECKPOINT_FILE : pystr := py "/data/checkpoint.json".
Definition TSV_FILE : pystr := py "/data/result3.txt".
(** [MAX_CHAPTERS = None] in the source, an integer when the operator caps
    the run; the orchestrator takes the cap as an argument. *)
Definition MAX_CHAPTERS : option Z := None.
Definition DONE : pystr := py "done".

(** ** The file system *)

Record FS := mkFS {
  text_files : gmap pystr pystr;
  checkpoint_file : option (gmap pystr pystr)
}.

(** [open(path, 'w').write(text)]: the file is created or replaced. *)
Definition write_text (path text : pystr) (fs : FS) : FS :=
  mkFS (<[path := text]> (text_files fs)) (checkpoint_file fs).

(** [open(path, 'r').read()], [None] when no such regular file exists. *)
Definition read_text (path : pystr) (fs : FS) : option pystr :=
  universal_newlines <$> text_files fs !! path.

Fixpoint strip_prefix (p s : pystr) : option pystr :=
  match p, s with
  | [], _ => Some s
  | _ :: _, [] => None
  | a :: p', b :: s' => if a =? b then strip_prefix p' s' else None
  end.

Fixpoint first_component (s : pystr) : pystr :=
  match s with
  | [] => []
  | c :: r => if c =? SLASH then [] else c :: first_component r
  end.

(** The entry of directory [d] that [path] lies under, if any. *)
Definition entry_of (d path : pystr) : option pystr :=
  first_component <$> strip_prefix (d ++ [SLASH]) path.

(** [os.listdir(d)] returns the entries of [d] in arbitrary order. *)
Definition os_listdir (d : pystr) (fs : FS) (names : list pystr) : Prop :=
  NoDup names ∧
  ∀ n, n ∈ names ↔ ∃ path, is_Some (text_files fs !! path) ∧ entry_of d path = Some n.

(** One such listing, for running the model. *)
Definition listdir (d : pystr) (fs : FS) : list pystr :=
  remove_dups (omap (entry_of d) (map fst (map_to_list (text_files fs)))).

(** ** Checkpoint store *)

Definition load_checkpoint (fs : FS) : gmap pystr pystr :=
  match checkpoint_file fs with
  | Some data => data
  | None => ∅
  end.

Definition save_checkpoint (data : gmap pystr pystr) (fs : FS) : FS :=
  mkFS (text_files fs) (Some data).

(** ** Request worker *)

(** What one attempt meets: [session.post] raises (network error, timeout),
    or a response arrives with its status and, when the JSON body parses and
    holds [choices[0].message.content], that content. *)
Inductive reply :=
| NoResponse
| Response (status : Z) (content : option pystr).

(** How the two lines [with open(output_path, 'w') ...: f_out.write(...)]
    go.  Both stand inside the [try]: [open] raises and nothing changes; or
    [open] has created (or emptied) the file and [write] raises, the file
    keeping what had been written by then, [kept]; or the text is written. *)
Inductive write_outcome :=
| OpenRaises
| WriteRaises (kept : pystr)
| Written.

Definition worker_result := option (pystr * pystr).

Definition numbered_title (chapter_num : nat) (title : pystr) : pystr :=
  format_04d chapter_num ++ [SPACE] ++ title.

Definition output_path (chapter_num : nat) (title : pystr) : pystr :=
  os_path_join OUTPUT_DIR (numbered_title chapter_num title ++ py ".txt").

(** The loop [for attempt in range(1, max_retries + 1)], [remaining]
    iterations before the range is exhausted.  [env attempt] is the reply
    the attempt receives, [disk attempt] how its write goes. *)
Fixpoint attempt_loop (env : nat → reply) (disk : nat → write_outcome)
    (title path : pystr) (max_retries : nat)
    (remaining attempt : nat) (fs : FS) : worker_result * FS :=
  match remaining with
  | O => (None, fs)
  | S remaining' =>
    let next := attempt_loop env disk title path max_retries remaining' (S attempt) in
    let on_exception :=
      fun fs' => if (attempt =? max_retries)%nat then (None, fs') else next fs' in
    match env attempt with
    | NoResponse => on_exception fs
    | Response status content =>
      if (status =? 429)%Z then next fs
      else if negb (status =? 200)%Z then on_exception fs
      else
        match content with
        | None => on_exception fs
        | Some c =>
          let result := strip c in
          match disk attempt with
          | OpenRaises => on_exception fs
          | WriteRaises kept => on_exception (write_text path kept fs)
          | Written =>
            (Some (title, title ++ [TAB] ++ escape_newlines result),
             write_text path (title ++ [LF; LF] ++ result) fs)
          end
        end
    end
  end.

Definition call_openai_format (env : nat → reply) (disk : nat → write_outcome)
    (title body : pystr) (chapter_num max_retries : nat) (fs : FS)
    : worker_result * FS :=
  attempt_loop env disk title (output_path chapter_num title) max_retries
    max_retries 1 fs.

Definition DEFAULT_MAX_RETRIES : nat := 5.

(** ** Batch orchestrator *)

Record task := mkTask {
  task_title : pystr;
  task_body : pystr;
  task_chapter_num : nat
}.

(** The list [re.split(CHAPTER_PATTERN, content)] returns. *)
Definition split_parts (preamble : pystr) (segments : list (pystr * pystr)) : list pystr :=
  preamble :: flat_map (fun hb => [hb.1; hb.2]) segments.

(** Truth value of [MAX_CHAPTERS and chapter_num > MAX_CHAPTERS]. *)
Definition over_cap (cap : option Z) (chapter_num : nat) : bool :=
  match cap with
  | None => false
  | Some m => negb (m =? 0)%Z && (m <? Z.of_nat chapter_num)%Z
  end.

(** The loop [for i in range(1, len(parts), 2)] from position [i] on, [rest]
    being [parts[i:]].  Reading [parts[i+1]] past the end raises. *)
Fixpoint schedule_loop (cap : option Z) (checkpoint : gmap pystr pystr)
    (rest : list pystr) (chapter_num : nat) (tasks : list task) : option (list task) :=
  match rest with
  | [] => Some tasks
  | [_] => None
  | heading :: raw :: rest' =>
    let title := strip heading in
    let body := replace_newlines_by_space (strip raw) in
    if bool_decide (is_Some (checkpoint !! title))
    then schedule_loop cap checkpoint rest' chapter_num tasks
    else
      let chapter_num := S chapter_num in
      if over_cap cap chapter_num then Some tasks
      else schedule_loop cap checkpoint rest' chapter_num
             (tasks ++ [mkTask title body chapter_num])
  end.

Definition schedule (cap : option Z) (checkpoint : gmap pystr pystr)
    (parts : list pystr) : option (list task) :=
  schedule_loop cap checkpoint (tail parts) 0 [].

(** [asyncio.gather] over the tasks: results in task order.  Worker number [i]
    meets the replies [envs i] and the disk [disks i]. *)
Fixpoint gather (envs : nat → nat → reply) (disks : nat → nat → write_outcome)
    (i : nat) (tasks : list task) (fs : FS) : list worker_result * FS :=
  match tasks with
  | [] => ([], fs)
  | t :: tasks' =>
    let '(r, fs1) :=
      call_openai_format (envs i) (disks i) (task_title t) (task_body t)
        (task_chapter_num t) DEFAULT_MAX_RETRIES fs in
    let '(rs, fs2) := gather envs disks (S i) tasks' fs1 in
    (r :: rs, fs2)
  end.

(** [for result in results: if result: checkpoint[title] = "done"] *)
Definition mark_done (checkpoint : gmap pystr pystr) (results : list worker_result)
    : gmap pystr pystr :=
  foldl (fun cp r => match r with
                     | Some (title, _) => <[title := DONE]> cp
                     | None => cp
                     end) checkpoint results.

(** ** Aggregator *)

(** The body of the loop over file names: the entries one name adds. *)
Definition read_entry (fs : FS) (filename : pystr) : option (list pystr) :=
  if endswith filename (py ".txt") then
    text ← read_text (os_path_join OUTPUT_DIR filename) fs;
    let lines := readlines text in
    line0 ← lines !! 0%nat;
    let original_title := drop 4 (strip line0) in
    let content := strip (concat (drop 2 lines)) in
    Some [original_title ++ [LF] ++ content ++ [LF]]
  else Some [].

Definition tsv_text (entries : list pystr) : pystr :=
  concat (map (fun line => line ++ [LF]) entries).

(** [names] is what [os.listdir(OUTPUT_DIR)] returned. *)
Definition regenerate_tsv_from_output (names : list pystr) (fs : FS) : option FS :=
  entries ← mapM (read_entry fs) (sorted names);
  Some (write_text TSV_FILE (tsv_text (concat entries)) fs).

(** ** The run *)

(** [split_and_process_async] up to and including [save_checkpoint]. *)
Definition process_chapters (cap : option Z) (parts : list pystr)
    (envs : nat → nat → reply) (disks : nat → nat → write_outcome) (fs : FS)
    : option FS :=
  let checkpoint := load_checkpoint fs in
  tasks ← schedule cap checkpoint parts;
  let '(results, fs1) := gather envs disks 0 tasks fs in
  Some (save_checkpoint (mark_done checkpoint results) fs1).

Definition split_and_process_async (cap : option Z) (parts : list pystr)
    (envs : nat → nat → reply) (disks : nat → nat → write_outcome) (fs : FS)
    : option FS :=
  fs1 ← process_chapters cap parts envs disks fs;
  regenerate_tsv_from_output (listdir OUTPUT_DIR fs1) fs1.

(** The example of the specification, with the replies and file systems
    the examples below run it on. *)
Definition title1 : pystr := py "第1章 起（序）".
Definition title2 : pystr := py "第2章 终（尾）".

Definition example_segments : list (pystr * pystr) :=
  [(title1, py "正文一
"); (title2, py "正文二
")].

Definition example_parts : list pystr := split_parts [] example_segments.

Definition empty_fs : FS := mkFS ∅ None.

(** A run resumed after chapter 1 was checkpointed. *)
Definition resumed_fs : FS := mkFS ∅ (Some {[ title1 := DONE ]}).

Definition ok (text : pystr) : reply := Response 200 (Some text).

Definition always_ok : nat → nat → reply := fun _ _ => ok (py "甲
乙").

(** A disk on which every write goes through. *)
Definition always_written : nat → nat → write_outcome := fun _ _ => Written.

(** The first worker never gets through, the others do. *)
Definition first_fails : nat → nat → reply :=
  fun i _ => match i with O => Response 429 None | S _ => ok (py "甲") end.

(** The output directory after both chapters of the example succeeded. *)
Definition two_chapters_fs : FS :=
  mkFS {[ py "/data/output/0001 第1章 起（序）.txt" := py "第1章 起（序）

甲
乙";
          py "/data/output/0002 第2章 终（尾）.txt" := py "第2章 终（尾）

甲
乙" ]} None.

(** ** Vocabulary of the statements *)

(** A chapter as the loop sees it: trimmed heading, trimmed body with its
    line feeds turned into spaces. *)
Definition chapter_of (hb : pystr * pystr) : pystr * pystr :=
  (strip hb.1, replace_newlines_by_space (strip hb.2)).

(** The chapters of the document, in document order, whose title is not a
    key of the checkpoint. *)
Definition pending (checkpoint : gmap pystr pystr) (segments : list (pystr * pystr))
    : list (pystr * pystr) :=
  filter (fun c => checkpoint !! c.1 = None) (map chapter_of segments).

(** Chapters numbered [n + 1], [n + 2], ... *)
Fixpoint number_from (n : nat) (cs : list (pystr * pystr)) : list task :=
  match cs with
  | [] => []
  | c :: cs' => mkTask c.1 c.2 (S n) :: number_from (S n) cs'
  end.

(** What a cap leaves of a list of chapters once [n] are already counted. *)
Definition limit (cap : option Z) (n : nat) (cs : list (pystr * pystr))
    : list (pystr * pystr) :=
  match cap with
  | None => cs
  | Some m => if (m =? 0)%Z then cs else take (Z.to_nat (m - Z.of_nat n)) cs
  end.

(** Decimal digits and the number they spell. *)
Definition is_digit (c : pychar) : Prop := 48 ≤ c ≤ 57.

Definition digits_value (l : pystr) (acc : nat) : nat :=
  foldl (fun a c => (10 * a + N.to_nat (c - 48))%nat) acc l.

(** An attempt that does not produce a result: HTTP 429, another status
    than 200, no response (network error, timeout), or a body that does not
    parse. *)
Definition failed (r : reply) : Prop :=
  match r with
  | NoResponse => True
  | Response status content => status ≠ 200%Z ∨ content = None
  end.

(** All attempts [1 .. max_retries] fail. *)
Definition exhausts (env : nat → reply) (max_retries : nat) : Prop :=
  ∀ attempt, (1 ≤ attempt ≤ max_retries)%nat → failed (env attempt).

(** Attempt [k] is the first that gets through: each attempt before it
    fails, in the exchange or in the write, and attempt [k] is answered 200
    with the content [c], which is written. *)
Definition succeeds_at (env : nat → reply) (disk : nat → write_outcome)
    (k : nat) (c : pystr) : Prop :=
  (1 ≤ k)%nat ∧
  (∀ a, (1 ≤ a < k)%nat → failed (env a) ∨ disk a ≠ Written) ∧
  env k = Response 200 (Some c) ∧ disk k = Written.

(** Two 429 answers, then a good one. *)
Definition third_time_lucky : nat → reply :=
  fun a => if (a <? 3)%nat then Response 429 None else ok (py "  甲
乙  ").

(** A disk on which the writes of the first three attempts raise, leaving
    an empty file. *)
Definition fourth_write_lucky : nat → write_outcome :=
  fun a => if (a <? 4)%nat then WriteRaises [] else Written.

(** The content an attempt stores: it is answered 200 with content and its
    write goes through. *)
Definition stored_at (env : nat → reply) (disk : nat → write_outcome) (a : nat)
    : option pystr :=
  match env a, disk a with
  | Response status (Some c), Written => if (status =? 200)%Z then Some c else None
  | _, _ => None
  end.

(** What an attempt leaves in the file without storing: it is answered 200
    with content, the file is opened and the write raises. *)
Definition left_at (env : nat → reply) (disk : nat → write_outcome) (a : nat)
    : option pystr :=
  match env a, disk a with
  | Response status (Some c), WriteRaises kept =>
    if (status =? 200)%Z then Some kept else None
  | _, _ => None
  end.

(** The content of the first attempt that stores, among [remaining]
    attempts from [attempt] on. *)
Fixpoint first_good (env : nat → reply) (disk : nat → write_outcome)
    (remaining attempt : nat) : option pystr :=
  match remaining with
  | O => None
  | S remaining' =>
    match stored_at env disk attempt with
    | Some c => Some c
    | None => first_good env disk remaining' (S attempt)
    end
  end.

(** What the last raising write among those attempts left in the file. *)
Fixpoint debris (env : nat → reply) (disk : nat → write_outcome)
    (remaining attempt : nat) : option pystr :=
  match remaining with
  | O => None
  | S remaining' =>
    match debris env disk remaining' (S attempt) with
    | Some kept => Some kept
    | None => left_at env disk attempt
    end
  end.

Definition good_reply (env : nat → reply) (disk : nat → write_outcome) : option pystr :=
  first_good env disk DEFAULT_MAX_RETRIES 1.

(** The tasks whose worker stores a reply, in task order, each with the
    content it received; worker number [i] meets [envs i] and [disks i]. *)
Fixpoint successes (envs : nat → nat → reply) (disks : nat → nat → write_outcome)
    (i : nat) (tasks : list task) : list (task * pystr) :=
  match tasks with
  | [] => []
  | t :: tasks' =>
    match good_reply (envs i) (disks i) with
    | Some c => (t, c) :: successes envs disks (S i) tasks'
    | None => successes envs disks (S i) tasks'
    end
  end.

(** The name of the output file of a successful task, and the entry the
    aggregator makes of it. *)
Definition file_name (s : task * pystr) : pystr :=
  numbered_title (task_chapter_num s.1) (task_title s.1) ++ py ".txt".

Definition block (s : task * pystr) : pystr :=
  drop 4 (task_title s.1) ++ [LF] ++ strip (universal_newlines (strip s.2)) ++ [LF].

(** File systems that a sequence of runs leaves, starting without a
    checkpoint file; between runs, text files may change in any way. *)
Inductive run_history : FS → Prop :=
| history_fresh files : run_history (mkFS files None)
| history_files fs files : run_history fs → run_history (mkFS files (checkpoint_file fs))
| history_run fs cap parts envs disks fs' :
    run_history fs → process_chapters cap parts envs disks fs = Some fs' →
    run_history fs'.

(** * Properties *)

(** ** Scheduling *)

Lemma number_from_lookup n cs i :
  number_from n cs !! i = (fun c => mkTask c.1 c.2 (S (n + i))) <$> cs !! i.
Proof.
  revert n i. induction cs as [|c cs IH]; intros n [|i]; simpl; try done.
  - by rewrite Nat.add_0_r.
  - rewrite IH. by replace (S n + i)%nat with (n + S i)%nat by lia.
Qed.

Lemma number_from_length n cs : length (number_from n cs) = length cs.
Proof. revert n. induction cs; intros; simpl; auto. Qed.

Lemma number_from_chapters n cs :
  map (fun t => (task_title t, task_body t)) (number_from n cs) = cs.
Proof.
  revert n. induction cs as [|[??] cs IH]; intros; simpl; [done|]. by rewrite IH.
Qed.

Lemma limit_over cap n c cs :
  over_cap cap (S n) = true → limit cap n (c :: cs) = [].
Proof.
  destruct cap as [m|]; simpl; [|done].
  intros [Hm Hlt]%andb_true_iff.
  apply negb_true_iff in Hm. rewrite Hm.
  apply Z.ltb_lt in Hlt.
  by replace (Z.to_nat (m - Z.of_nat n)) with 0%nat by lia.
Qed.

Lemma limit_under cap n c cs :
  over_cap cap (S n) = false → limit cap n (c :: cs) = c :: limit cap (S n) cs.
Proof.
  destruct cap as [m|]; simpl; [|done].
  destruct (m =? 0)%Z eqn:Hm; simpl; [done|].
  intros Hlt%Z.ltb_ge.
  by replace (Z.to_nat (m - Z.of_nat n)) with (S (Z.to_nat (m - Z.of_nat (S n)))) by lia.
Qed.

Lemma schedule_loop_spec cap cp segs n acc :
  schedule_loop cap cp (flat_map (fun hb => [hb.1; hb.2]) segs) n acc
  = Some (acc ++ number_from n (limit cap n (pending cp segs))).
Proof.
  revert n acc. induction segs as [|[h b] segs IH]; intros n acc.
  - simpl. replace (limit cap n (pending cp [])) with (@nil (pystr * pystr)).
    + by rewrite app_nil_r.
    + change (pending cp []) with (@nil (pystr * pystr)).
      unfold limit. destruct cap as [m|]; [|done].
      destruct (m =? 0)%Z; [done|]. by rewrite take_nil.
  - cbn [flat_map app fst snd schedule_loop].
    unfold pending. cbn [map]. rewrite filter_cons.
    change (filter _ (map chapter_of segs)) with (pending cp segs).
    cbn [chapter_of fst snd].
    destruct (decide (cp !! strip h = None)) as [Hnone|Hsome].
    + rewrite bool_decide_eq_false_2 by (rewrite Hnone; by intros [? ?]).
      destruct (over_cap cap (S n)) eqn:Hcap.
      * rewrite limit_over by done. by rewrite app_nil_r.
      * rewrite IH, limit_under by done. simpl. by rewrite <- app_assoc.
    + rewrite bool_decide_eq_true_2; [apply IH|].
      destruct (cp !! strip h); [eauto|done].
Qed.

Lemma schedule_spec cap cp pre segs :
  schedule cap cp (split_parts pre segs)
  = Some (number_from 0 (limit cap 0 (pending cp segs))).
Proof. unfold schedule, split_parts. simpl. apply schedule_loop_spec. Qed.

Lemma pending_not_checkpointed cp segs c : c ∈ pending cp segs → cp !! c.1 = None.
Proof. unfold pending. rewrite list_elem_of_filter. tauto. Qed.

Lemma limit_sublist cap n cs c : c ∈ limit cap n cs → c ∈ cs.
Proof.
  destruct cap as [m|]; simpl; [|done].
  destruct (m =? 0)%Z; [done|]. intros H.
  eapply elem_of_take in H as (i & H & _). by eapply list_elem_of_lookup_2.
Qed.

(** ** Output paths *)

Lemma uint_digits_value d acc :
  digits_value (uint_digits d) acc = Nat.of_uint_acc d acc.
Proof.
  revert acc. unfold digits_value.
  induction d as [|d IH|d IH|d IH|d IH|d IH|d IH|d IH|d IH|d IH|d IH]; intros acc;
    cbn [uint_digits foldl Nat.of_uint_acc]; [done|..];
    rewrite IH, Nat.tail_mul_spec; f_equal;
    match goal with |- context [N.to_nat ?x] =>
      let v := eval vm_compute in (N.to_nat x) in change (N.to_nat x) with v
    end; lia.
Qed.

Lemma zeros_value k l : digits_value (replicate k ZERO ++ l) 0 = digits_value l 0.
Proof. unfold digits_value. induction k; simpl; auto. Qed.

Lemma format_04d_value n : digits_value (format_04d n) 0 = n.
Proof.
  unfold format_04d, str_of_nat. rewrite zeros_value, uint_digits_value.
  apply Unsigned.of_to.
Qed.

Lemma format_04d_inj n1 n2 : format_04d n1 = format_04d n2 → n1 = n2.
Proof. intros H. rewrite <- (format_04d_value n1), H. apply format_04d_value. Qed.

Lemma uint_digits_digits d : Forall is_digit (uint_digits d).
Proof. induction d; simpl; constructor; auto; unfold is_digit; lia. Qed.

Lemma format_04d_digits n : Forall is_digit (format_04d n).
Proof.
  unfold format_04d. apply Forall_app. split.
  - apply Forall_replicate. unfold is_digit, ZERO. lia.
  - apply uint_digits_digits.
Qed.

Lemma format_04d_length n : (4 ≤ length (format_04d n))%nat.
Proof.
  unfold format_04d. cbv zeta. rewrite length_app, length_replicate.
  unfold pychar. lia.
Qed.

Lemma digits_then_space l1 l2 r1 r2 :
  Forall is_digit l1 → Forall is_digit l2 →
  l1 ++ SPACE :: r1 = l2 ++ SPACE :: r2 → l1 = l2.
Proof.
  intros H1. revert l2. induction H1 as [|c l1 Hc _ IH]; intros l2 H2 Heq.
  - destruct H2 as [|d l2 Hd _]; [done|]. simplify_eq/=.
    unfold is_digit, SPACE in Hd. lia.
  - destruct H2 as [|d l2 Hd H2]; simplify_eq/=.
    + unfold is_digit, SPACE in Hc. lia.
    + f_equal. eauto.
Qed.

(** The path of a worker's file, spelled out. *)
Lemma output_path_eq n title :
  output_path n title
  = OUTPUT_DIR ++ [SLASH] ++ format_04d n ++ [SPACE] ++ title ++ py ".txt".
Proof.
  unfold output_path, numbered_title, os_path_join.
  pose proof (format_04d_digits n) as Hd.
  pose proof (format_04d_length n) as Hl.
  destruct (format_04d n) as [|c ds] eqn:Hf; [simpl in Hl; lia|].
  apply Forall_cons in Hd as [Hc _].
  assert ((SLASH =? c) = false) as Hs
    by (apply N.eqb_neq; unfold is_digit, SLASH in *; lia).
  cbn [app startswith]. rewrite Hs. cbn [andb].
  replace (bool_decide (OUTPUT_DIR = []) || endswith OUTPUT_DIR [SLASH]) with false
    by (by vm_compute).
  by rewrite <- !app_assoc.
Qed.

(** Each chapter number has a path of its own. *)
Lemma output_path_inj n1 t1 n2 t2 : output_path n1 t1 = output_path n2 t2 → n1 = n2.
Proof.
  rewrite !output_path_eq. intros H%app_inv_head. simpl in H.
  injection H as H.
  apply format_04d_inj.
  eapply digits_then_space; eauto using format_04d_digits.
Qed.

(** ** The worker *)

Lemma write_text_over path text1 text2 fs :
  write_text path text2 (write_text path text1 fs) = write_text path text2 fs.
Proof.
  unfold write_text. cbn [text_files checkpoint_file]. by rewrite insert_insert_eq.
Qed.

Lemma attempt_loop_exhausted env disk title path max_retries remaining attempt fs :
  (∀ a, (attempt ≤ a < attempt + remaining)%nat → failed (env a)) →
  attempt_loop env disk title path max_retries remaining attempt fs = (None, fs).
Proof.
  revert attempt. induction remaining as [|r IH]; intros attempt Hfail; [done|].
  cbn [attempt_loop]. cbv zeta. rewrite IH by (intros a Ha; apply Hfail; lia).
  pose proof (Hfail attempt ltac:(lia)) as Hnow.
  destruct (env attempt) as [|status content]; simpl in Hnow.
  - by destruct (attempt =? max_retries)%nat.
  - destruct (status =? 429)%Z; [done|].
    destruct (status =? 200)%Z eqn:Hs; simpl.
    + apply Z.eqb_eq in Hs. destruct Hnow as [?| ->]; [done|].
      by destruct (attempt =? max_retries)%nat.
    + by destruct (attempt =? max_retries)%nat.
Qed.

Lemma call_openai_format_exhausted env disk title body chapter_num max_retries fs :
  exhausts env max_retries →
  call_openai_format env disk title body chapter_num max_retries fs = (None, fs).
Proof.
  intros H. apply attempt_loop_exhausted. intros a Ha. apply H. lia.
Qed.

(** The loop, by the first attempt that stores and, when there is none, by
    the last write that raised. *)
Lemma attempt_loop_first_good env disk title path max_retries remaining attempt fs :
  (attempt + remaining = S max_retries)%nat →
  attempt_loop env disk title path max_retries remaining attempt fs
  = match first_good env disk remaining attempt with
    | Some c => (Some (title, title ++ [TAB] ++ escape_newlines (strip c)),
                 write_text path (title ++ [LF; LF] ++ strip c) fs)
    | None => (None, match debris env disk remaining attempt with
                     | Some kept => write_text path kept fs
                     | None => fs
                     end)
    end.
Proof.
  revert attempt fs. induction remaining as [|r IH]; intros attempt fs Hsum; [done|].
  cbn [attempt_loop first_good debris]. cbv zeta.
  assert (∀ fs', (if (attempt =? max_retries)%nat
                  then (None, fs')
                  else attempt_loop env disk title path max_retries r (S attempt) fs')
                 = attempt_loop env disk title path max_retries r (S attempt) fs')
    as Hlast.
  { intros fs'. destruct (attempt =? max_retries)%nat eqn:E; [|done].
    apply Nat.eqb_eq in E. by assert (r = 0)%nat as -> by lia. }
  unfold stored_at, left_at.
  destruct (env attempt) as [|status [c|]];
    [|destruct (status =? 429)%Z eqn:E429;
       [apply Z.eqb_eq in E429 as ->; simpl|destruct (status =? 200)%Z; simpl]
     |destruct (status =? 429)%Z; [|destruct (status =? 200)%Z; simpl]];
    try destruct (disk attempt) as [|kept|];
    rewrite ?Hlast, ?IH by lia;
    repeat case_match; simplify_eq; by rewrite ?write_text_over.
Qed.

Lemma call_openai_format_first_good env disk title body chapter_num max_retries fs :
  call_openai_format env disk title body chapter_num max_retries fs
  = match first_good env disk max_retries 1 with
    | Some c => (Some (title, title ++ [TAB] ++ escape_newlines (strip c)),
                 write_text (output_path chapter_num title)
                   (title ++ [LF; LF] ++ strip c) fs)
    | None => (None, match debris env disk max_retries 1 with
                     | Some kept => write_text (output_path chapter_num title) kept fs
                     | None => fs
                     end)
    end.
Proof. apply attempt_loop_first_good. lia. Qed.

(** A worker changes nothing but the file at its output path, and either
    returns [None] or returns its title with the escaped text and leaves
    the title, an empty line and the trimmed text in that file. *)
Lemma call_openai_format_cases env disk title body chapter_num max_retries fs r fs' :
  call_openai_format env disk title body chapter_num max_retries fs = (r, fs') →
  checkpoint_file fs' = checkpoint_file fs ∧
  (∀ p, p ≠ output_path chapter_num title → text_files fs' !! p = text_files fs !! p) ∧
  (r = None ∨
   ∃ c, r = Some (title, title ++ [TAB] ++ escape_newlines (strip c)) ∧
        text_files fs' !! output_path chapter_num title
        = Some (title ++ [LF; LF] ++ strip c)).
Proof.
  rewrite call_openai_format_first_good.
  destruct (first_good env disk max_retries 1) as [c|].
  - intros [= <- <-]. split; [done|]. split.
    + intros p Hp. simpl. by rewrite lookup_insert_ne.
    + right. exists c. split; [done|]. simpl. apply lookup_insert_eq.
  - destruct (debris env disk max_retries 1) as [kept|]; intros [= <- <-].
    + split; [done|]. split; [|by left].
      intros p Hp. simpl. by rewrite lookup_insert_ne.
    + split; [done|]. split; [done|by left].
Qed.

(** ** Joint wait *)

Lemma gather_length envs disks i tasks fs rs fs' :
  gather envs disks i tasks fs = (rs, fs') → length rs = length tasks.
Proof.
  revert i fs rs fs'. induction tasks as [|t tasks IH]; intros i fs rs fs'; simpl.
  - by intros [= <- <-].
  - destruct (call_openai_format _ _ _ _ _ _ _) as [r fs1].
    destruct (gather envs disks (S i) tasks fs1) as [rs' fs2] eqn:Hg.
    intros [= <- <-]. simpl. f_equal. eauto.
Qed.

(** Result number [j] comes from task number [j] on the file system the
    earlier workers left. *)
Lemma gather_lookup envs disks i tasks fs rs fs' j t :
  gather envs disks i tasks fs = (rs, fs') → tasks !! j = Some t →
  ∃ fsj r fsj', rs !! j = Some r ∧
    call_openai_format (envs (i + j)%nat) (disks (i + j)%nat) (task_title t)
      (task_body t) (task_chapter_num t) DEFAULT_MAX_RETRIES fsj = (r, fsj').
Proof.
  revert i fs rs fs' j. induction tasks as [|t0 tasks IH]; intros i fs rs fs' j; [done|].
  simpl. destruct (call_openai_format _ _ _ _ _ _ _) as [r fs1] eqn:Hc.
  destruct (gather envs disks (S i) tasks fs1) as [rs' fs2] eqn:Hg.
  intros [= <- <-]. destruct j as [|j]; simpl.
  - intros [= ->]. rewrite Nat.add_0_r. eauto.
  - intros Ht. destruct (IH _ _ _ _ _ Hg Ht) as (fsj & r' & fsj' & ? & ?).
    replace (i + S j)%nat with (S i + j)%nat by lia. eauto.
Qed.

Lemma gather_titles envs disks i tasks fs rs fs' j title line :
  gather envs disks i tasks fs = (rs, fs') → rs !! j = Some (Some (title, line)) →
  ∃ t, tasks !! j = Some t ∧ task_title t = title.
Proof.
  intros Hg Hr.
  destruct (tasks !! j) as [t|] eqn:Ht.
  - destruct (gather_lookup _ _ _ _ _ _ _ _ _ Hg Ht) as (fsj & r & fsj' & Hr' & Hc).
    unfold worker_result in *.
    assert (r = Some (title, line)) as -> by congruence.
    apply call_openai_format_cases in Hc as (_ & _ & [?|(c & [= Htitle _] & _)]); [done|].
    eauto.
  - apply lookup_ge_None in Ht. apply lookup_lt_Some in Hr.
    apply gather_length in Hg. unfold worker_result in *. lia.
Qed.

(** The workers leave the checkpoint file alone, and a text file differs
    afterwards only at the path of a worker that got as far as its write. *)
Lemma gather_files envs disks i tasks fs rs fs' :
  gather envs disks i tasks fs = (rs, fs') →
  checkpoint_file fs' = checkpoint_file fs ∧
  ∀ p, text_files fs' !! p ≠ text_files fs !! p →
    ∃ j t, tasks !! j = Some t ∧
      p = output_path (task_chapter_num t) (task_title t) ∧
      ¬ exhausts (envs (i + j)%nat) DEFAULT_MAX_RETRIES.
Proof.
  revert i fs rs fs'. induction tasks as [|t tasks IH]; intros i fs rs fs'; simpl.
  - intros [= <- <-]. split; [done|]. intros p Hp. done.
  - destruct (call_openai_format _ _ _ _ _ _ _) as [r fs1] eqn:Hc.
    destruct (gather envs disks (S i) tasks fs1) as [rs' fs2] eqn:Hg.
    intros [= <- <-]. destruct (IH _ _ _ _ Hg) as [Hcp Hfiles].
    pose proof Hc as (Hcp1 & Hown & _)%call_openai_format_cases.
    split; [congruence|]. intros p Hp.
    destruct (decide (text_files fs2 !! p = text_files fs1 !! p)) as [Heq|Hne].
    + exists 0%nat, t. split; [done|]. rewrite Nat.add_0_r.
      destruct (decide (p = output_path (task_chapter_num t) (task_title t)))
        as [->|Hother].
      * split; [done|]. intros Hex.
        rewrite call_openai_format_exhausted in Hc by done.
        injection Hc as _ <-. congruence.
      * rewrite Heq, Hown in Hp by done. done.
    + destruct (Hfiles p Hne) as (j & t' & ? & ? & ?). exists (S j), t'.
      replace (i + S j)%nat with (S i + j)%nat by lia. eauto.
Qed.

(** ** Marking chapters done *)

Lemma mark_done_untouched cp rs k :
  (∀ line, Some (k, line) ∉ rs) → mark_done cp rs !! k = cp !! k.
Proof.
  unfold mark_done. revert cp. induction rs as [|r rs IH]; intros cp Hk; [done|].
  simpl. rewrite IH by (intros line Hin; eapply Hk; by right).
  destruct r as [[title line]|]; [|done].
  apply lookup_insert_ne. intros ->. eapply Hk. by left.
Qed.

Lemma mark_done_values cp rs k v :
  mark_done cp rs !! k = Some v → cp !! k = Some v ∨ v = DONE.
Proof.
  unfold mark_done. revert cp. induction rs as [|r rs IH]; intros cp; simpl; [by left|].
  intros H. apply IH in H as [H|H]; [|by right].
  destruct r as [[title line]|]; [|by left].
  destruct (decide (title = k)) as [->|Hne].
  - rewrite lookup_insert_eq in H. right. congruence.
  - rewrite lookup_insert_ne in H by done. by left.
Qed.

Lemma mark_done_stays_done cp rs k :
  cp !! k = Some DONE → mark_done cp rs !! k = Some DONE.
Proof.
  unfold mark_done. revert cp. induction rs as [|r rs IH]; intros cp Hk; [done|].
  simpl. apply IH. destruct r as [[title line]|]; [|done].
  destruct (decide (title = k)) as [->|Hne].
  - apply lookup_insert_eq.
  - by rewrite lookup_insert_ne.
Qed.

Lemma mark_done_added cp rs k line :
  Some (k, line) ∈ rs → mark_done cp rs !! k = Some DONE.
Proof.
  revert cp. induction rs as [|r rs IH]; intros cp Hin.
  - by apply elem_of_nil in Hin.
  - apply elem_of_cons in Hin as [<-|Hin].
    + apply (mark_done_stays_done (<[k:=DONE]> cp) rs). apply lookup_insert_eq.
    + apply (IH _ Hin).
Qed.

(** ** What the schedule holds *)

Lemma scheduled_task cap cp segs i t :
  number_from 0 (limit cap 0 (pending cp segs)) !! i = Some t →
  task_chapter_num t = S i ∧
  limit cap 0 (pending cp segs) !! i = Some (task_title t, task_body t) ∧
  cp !! task_title t = None.
Proof.
  rewrite number_from_lookup.
  destruct (limit cap 0 (pending cp segs) !! i) as [[title body]|] eqn:Hl; [|done].
  intros [= <-]. simpl. split_and!; try done.
  apply list_elem_of_lookup_2, limit_sublist, pending_not_checkpointed in Hl. done.
Qed.

Lemma pending_empty segs : pending ∅ segs = map chapter_of segs.
Proof.
  unfold pending. induction (map chapter_of segs) as [|c cs IH]; [done|].
  rewrite filter_cons, IH. by rewrite decide_True by apply lookup_empty.
Qed.

Lemma exhausted_result envs disks i tasks fs rs fs' j t :
  gather envs disks i tasks fs = (rs, fs') → tasks !! j = Some t →
  exhausts (envs (i + j)%nat) DEFAULT_MAX_RETRIES → rs !! j = Some None.
Proof.
  intros Hg Ht Hex.
  destruct (gather_lookup _ _ _ _ _ _ _ _ _ Hg Ht) as (fsj & r & fsj' & Hr & Hc).
  rewrite call_openai_format_exhausted in Hc by done. by injection Hc as <- _.
Qed.

(** * The claims *)

(** C3.  A chapter whose title is a key of the checkpoint loaded at the
    start of the run is skipped before scheduling: the run builds its task
    list, and no task (hence no worker, [gather] starting one per task)
    carries such a title. *)
Theorem C3_checkpointed_never_dispatched cap pre segs fs :
  ∃ tasks,
    schedule cap (load_checkpoint fs) (split_parts pre segs) = Some tasks ∧
    ∀ title, is_Some (load_checkpoint fs !! title) → title ∉ map task_title tasks.
Proof.
  eexists. split; [apply schedule_spec|].
  intros title [v Hv] (t & -> & Ht)%list_elem_of_fmap.
  apply list_elem_of_lookup in Ht as [i Ht].
  apply scheduled_task in Ht as (_ & _ & Hnone). congruence.
Qed.

Lemma C3_resumed_run_skips_chapter1 :
  ∃ tasks,
    schedule None (load_checkpoint resumed_fs) example_parts = Some tasks ∧
    (title1 ∉ map task_title tasks) ∧ (title2 ∈ map task_title tasks).
Proof.
  destruct (C3_checkpointed_never_dispatched None [] example_segments resumed_fs)
    as (tasks & Hs & Hskip).
  exists tasks. split; [exact Hs|]. split.
  - apply Hskip. exists DONE. by vm_compute.
  - unfold example_parts in Hs. rewrite schedule_spec in Hs. injection Hs as <-.
    vm_compute. apply list_elem_of_here.
Defined.

(** C6.  With a positive cap [m] the run schedules the first [m] chapters,
    in document order, among those not checkpointed: [min m k] tasks when
    [k] chapters are not checkpointed. *)
Theorem C6_positive_cap_takes_first_pending (m : Z) cp pre segs :
  (0 < m)%Z →
  ∃ tasks,
    schedule (Some m) cp (split_parts pre segs) = Some tasks ∧
    length tasks = Nat.min (Z.to_nat m) (length (pending cp segs)) ∧
    map (fun t => (task_title t, task_body t)) tasks
      = take (Z.to_nat m) (pending cp segs).
Proof.
  intros Hm. eexists. split; [apply schedule_spec|].
  assert (limit (Some m) 0 (pending cp segs) = take (Z.to_nat m) (pending cp segs)) as ->.
  { unfold limit. destruct (m =? 0)%Z eqn:H0; [apply Z.eqb_eq in H0; lia|].
    f_equal. lia. }
  split.
  - by rewrite number_from_length, length_take.
  - apply number_from_chapters.
Qed.

Lemma C6_cap_one_of_two :
  ∃ tasks,
    schedule (Some 1%Z) ∅ example_parts = Some tasks ∧
    length tasks = 1%nat ∧
    map (fun t => (task_title t, task_body t)) tasks = [(title1, py "正文一")].
Proof.
  destruct (C6_positive_cap_takes_first_pending 1 ∅ [] example_segments)
    as (tasks & Hs & Hlen & Hmap); [lia|].
  exists tasks. split; [exact Hs|]. split.
  - rewrite Hlen. by vm_compute.
  - rewrite Hmap. by vm_compute.
Defined.

(** C10.  A cap of 0 truncates nothing: the schedule is the one of a run
    without cap, every chapter that is not checkpointed. *)
Theorem C10_cap_zero_is_no_cap cp pre segs :
  schedule (Some 0%Z) cp (split_parts pre segs)
    = schedule None cp (split_parts pre segs) ∧
  ∃ tasks,
    schedule (Some 0%Z) cp (split_parts pre segs) = Some tasks ∧
    map (fun t => (task_title t, task_body t)) tasks = pending cp segs.
Proof.
  rewrite !schedule_spec. split; [done|].
  eexists. split; [done|]. apply number_from_chapters.
Qed.

(** C7.  Without a checkpoint file [load_checkpoint] returns the empty
    mapping, and the run goes on with no chapter counted as done: its
    schedule is the whole document (up to the cap), and it reaches
    [save_checkpoint]. *)
Theorem C7_missing_checkpoint_loads_empty fs :
  checkpoint_file fs = None →
  load_checkpoint fs = ∅ ∧
  ∀ cap pre segs,
    schedule cap (load_checkpoint fs) (split_parts pre segs)
      = Some (number_from 0 (limit cap 0 (map chapter_of segs))) ∧
    ∀ envs disks, is_Some (process_chapters cap (split_parts pre segs) envs disks fs).
Proof.
  intros Hno. assert (load_checkpoint fs = ∅) as Hload.
  { unfold load_checkpoint. by rewrite Hno. }
  split; [done|]. intros cap pre segs. split.
  - by rewrite schedule_spec, Hload, pending_empty.
  - intros envs disks. unfold process_chapters. rewrite schedule_spec. simpl.
    destruct (gather _ _ _ _ _). eauto.
Qed.

Lemma C7_first_run_schedules_everything :
  load_checkpoint empty_fs = ∅ ∧
  schedule MAX_CHAPTERS (load_checkpoint empty_fs) example_parts
    = Some [mkTask title1 (py "正文一") 1; mkTask title2 (py "正文二") 2].
Proof.
  destruct (C7_missing_checkpoint_loads_empty empty_fs eq_refl) as [Hload Hrun].
  split; [exact Hload|].
  destruct (Hrun MAX_CHAPTERS [] example_segments) as [Hs _].
  unfold example_parts. rewrite Hs. by vm_compute.
Defined.

(** C2.  The ordinal in the file name is a counter of the chapters this
    run schedules, not the chapter's position in the document: chapter 2 of
    the example is second in the document, yet a run that starts with
    chapter 1 checkpointed writes it under the ordinal 0001, while a run
    that starts from nothing writes it under 0002. *)
Lemma C2_path_depends_on_checkpoint :
  (∃ fs', process_chapters None example_parts always_ok always_written resumed_fs
          = Some fs' ∧
     is_Some (text_files fs' !! py "/data/output/0001 第2章 终（尾）.txt") ∧
     text_files fs' !! py "/data/output/0002 第2章 终（尾）.txt" = None) ∧
  (∃ fs', process_chapters None example_parts always_ok always_written empty_fs
          = Some fs' ∧
     is_Some (text_files fs' !! py "/data/output/0002 第2章 终（尾）.txt") ∧
     text_files fs' !! py "/data/output/0001 第2章 终（尾）.txt" = None).
Proof.
  split.
  - eexists. split; [by vm_compute|]. split; [|by vm_compute].
    eexists. by vm_compute.
  - eexists. split; [by vm_compute|]. split; [|by vm_compute].
    eexists. by vm_compute.
Qed.

(** C4.  A worker all of whose attempts fail (HTTP 429, another status than
    200, no response, a body that does not parse) returns [None], it does
    not raise, and leaves the file system as it found it.  In a run, for
    such a worker: its result is [None]; the file at its output path is
    after the joint wait what it was before the run; and its title is not a
    key of the saved checkpoint, as long as no other worker scheduled under
    the same title succeeds (titles are unique keys, then there is no
    other).  All of it whatever the disk does for the other workers. *)
Theorem C4_exhausted_worker_leaves_no_trace :
  (∀ env disk title body chapter_num max_retries fs,
     exhausts env max_retries →
     call_openai_format env disk title body chapter_num max_retries fs = (None, fs)) ∧
  (∀ cap pre segs envs disks fs,
     ∃ tasks results fs1,
       schedule cap (load_checkpoint fs) (split_parts pre segs) = Some tasks ∧
       gather envs disks 0 tasks fs = (results, fs1) ∧
       process_chapters cap (split_parts pre segs) envs disks fs
         = Some (save_checkpoint (mark_done (load_checkpoint fs) results) fs1) ∧
       ∀ i t, tasks !! i = Some t → exhausts (envs i) DEFAULT_MAX_RETRIES →
         results !! i = Some None ∧
         text_files fs1 !! output_path (task_chapter_num t) (task_title t)
           = text_files fs !! output_path (task_chapter_num t) (task_title t) ∧
         ((∀ j t', tasks !! j = Some t' → task_title t' = task_title t →
                   exhausts (envs j) DEFAULT_MAX_RETRIES) →
          mark_done (load_checkpoint fs) results !! task_title t = None)).
Proof.
  split; [apply call_openai_format_exhausted|].
  intros cap pre segs envs disks fs.
  destruct (gather envs disks 0
              (number_from 0 (limit cap 0 (pending (load_checkpoint fs) segs))) fs)
    as [results fs1] eqn:Hg.
  eexists _, results, fs1. split; [apply schedule_spec|]. split; [exact Hg|]. split.
  { unfold process_chapters. rewrite schedule_spec. simpl. by rewrite Hg. }
  intros i t Ht Hex.
  assert (results !! i = Some None) as Hnone
    by (eapply exhausted_result; eauto).
  split; [done|]. split.
  - destruct (decide (text_files fs1 !! output_path (task_chapter_num t) (task_title t)
                      = text_files fs !! output_path (task_chapter_num t) (task_title t)))
      as [|Hne]; [done|].
    apply (gather_files _ _ _ _ _ _ _ Hg) in Hne as (j & t' & Ht' & Hp & Hreached).
    apply output_path_inj in Hp.
    apply scheduled_task in Ht as (Hi & _), Ht' as (Hj & _).
    assert (i = j) as -> by lia. done.
  - intros Hsame. rewrite mark_done_untouched.
    + by apply scheduled_task in Ht as (_ & _ & ?).
    + intros line (j & Hr)%list_elem_of_lookup.
      destruct (gather_titles _ _ _ _ _ _ _ _ _ _ Hg Hr) as (t' & Ht' & Htitle).
      pose proof (exhausted_result _ _ _ _ _ _ _ _ _ Hg Ht' (Hsame _ _ Ht' Htitle)).
      unfold worker_result in *. congruence.
Qed.

Lemma first_fails_exhausts : exhausts (first_fails 0%nat) DEFAULT_MAX_RETRIES.
Proof. intros a _. simpl. by left. Qed.

Lemma C4_failed_chapter1_is_absent :
  ∃ fs',
    process_chapters None example_parts first_fails always_written empty_fs
      = Some fs' ∧
    text_files fs' !! output_path 1 title1 = None ∧
    load_checkpoint fs' !! title1 = None ∧
    load_checkpoint fs' !! title2 = Some DONE.
Proof.
  destruct C4_exhausted_worker_leaves_no_trace as [_ Hrun].
  destruct (Hrun None [] example_segments first_fails always_written empty_fs)
    as (tasks & results & fs1 & Hs & Hg & Hp & Hfail).
  rewrite schedule_spec in Hs. injection Hs as <-.
  destruct (Hfail 0%nat (mkTask title1 (py "正文一") 1) eq_refl first_fails_exhausts)
    as (_ & Hfile & Hcp).
  eexists. split; [exact Hp|]. split; [exact Hfile|]. split.
  - apply Hcp. intros [|[|j]] t'; [intros _ _; apply first_fails_exhausts| |done].
    intros [= <-]. by vm_compute.
  - vm_compute in Hg. injection Hg as <- <-. by vm_compute.
Defined.

(** C9.  The checkpoint a run saves extends the one it loaded: every entry
    loaded is saved unchanged, and a key that was not loaded is saved with
    the value ["done"].  Hence, over any sequence of runs that started
    without a checkpoint file, every value of the checkpoint file is
    ["done"]. *)
Theorem C9_checkpoint_grows_by_done :
  (∀ cap pre segs envs disks fs,
     ∃ fs' saved,
       process_chapters cap (split_parts pre segs) envs disks fs = Some fs' ∧
       checkpoint_file fs' = Some saved ∧
       load_checkpoint fs ⊆ saved ∧
       ∀ k v, load_checkpoint fs !! k = None → saved !! k = Some v → v = DONE) ∧
  (∀ fs saved, run_history fs → checkpoint_file fs = Some saved →
     ∀ k v, saved !! k = Some v → v = DONE).
Proof.
  split.
  - intros cap pre segs envs disks fs.
    unfold process_chapters. rewrite schedule_spec. simpl.
    destruct (gather _ _ _ _ _) as [results fs1] eqn:Hg.
    eexists _, _. split; [done|]. split; [done|]. split.
    + apply map_subseteq_spec. intros k v Hk.
      rewrite mark_done_untouched; [done|].
      intros line (j & Hr)%list_elem_of_lookup.
      destruct (gather_titles _ _ _ _ _ _ _ _ _ _ Hg Hr) as (t & Ht & <-).
      apply scheduled_task in Ht as (_ & _ & ?). congruence.
    + intros k v Hk Hv. apply mark_done_values in Hv as [?|?]; [congruence|done].
  - intros fs saved Hh. revert saved.
    induction Hh as [files|fs files _ IH|fs cap parts envs disks fs' _ IH Hrun];
      intros saved; simpl.
    + done.
    + apply IH.
    + unfold process_chapters in Hrun.
      destruct (schedule _ _ _) as [tasks|]; [|done]. simpl in Hrun.
      destruct (gather _ _ _ _ _) as [results fs1]. injection Hrun as <-. simpl.
      intros [= <-] k v [Hv| ->]%mark_done_values; [|done].
      unfold load_checkpoint in Hv. destruct (checkpoint_file fs) eqn:E; [eauto|].
      by rewrite lookup_empty in Hv.
Qed.

Lemma C9_second_run_keeps_first_entry :
  ∃ fs' saved,
    process_chapters None example_parts always_ok always_written resumed_fs
      = Some fs' ∧
    checkpoint_file fs' = Some saved ∧
    saved !! title1 = Some DONE ∧ saved !! title2 = Some DONE.
Proof.
  destruct C9_checkpoint_grows_by_done as [Hrun Hall].
  destruct (Hrun None [] example_segments always_ok always_written resumed_fs)
    as (fs' & saved & Hp & Hsaved & Hsub & Hnew).
  exists fs', saved. split; [exact Hp|]. split; [exact Hsaved|]. split.
  - eapply lookup_weaken; [|exact Hsub]. by vm_compute.
  - assert (is_Some (saved !! title2)) as [v Hv].
    { vm_compute in Hp. injection Hp as <-. simpl in Hsaved. injection Hsaved as <-.
      eexists. by vm_compute. }
    rewrite Hv. f_equal. eapply Hnew; [|exact Hv]. by vm_compute.
Defined.

(** ** Sorting file names *)

Lemma str_leb_total a b : str_leb a b = true ∨ str_leb b a = true.
Proof.
  revert b. induction a as [|x a IH]; intros [|y b]; simpl; auto.
  destruct (N.lt_trichotomy x y) as [Hlt|[->|Hgt]].
  - left. apply N.ltb_lt in Hlt. by rewrite Hlt.
  - rewrite N.eqb_refl, N.ltb_irrefl. simpl. apply IH.
  - right. apply N.ltb_lt in Hgt. by rewrite Hgt.
Qed.

Lemma str_leb_cons x a y b :
  str_leb (x :: a) (y :: b) = true ↔ x < y ∨ (x = y ∧ str_leb a b = true).
Proof.
  simpl. rewrite orb_true_iff, andb_true_iff, N.ltb_lt, N.eqb_eq. tauto.
Qed.

Lemma str_leb_antisym a b : str_leb a b = true → str_leb b a = true → a = b.
Proof.
  revert b. induction a as [|x a IH]; intros [|y b]; try done.
  rewrite !str_leb_cons. intros [?|[-> ?]] [?|[? ?]]; try lia.
  f_equal. auto.
Qed.

Lemma str_leb_trans a b c :
  str_leb a b = true → str_leb b c = true → str_leb a c = true.
Proof.
  revert b c. induction a as [|x a IH]; intros [|y b] [|z c]; try done.
  rewrite !str_leb_cons.
  intros [?|[? ?]] [?|[? ?]]; [left; lia..|right; split; [lia|eauto]].
Qed.

#[local] Instance str_le_total : Total str_le.
Proof.
  intros a b. unfold str_le. rewrite !Is_true_true. apply str_leb_total.
Qed.

#[local] Instance str_le_trans : Transitive str_le.
Proof.
  intros a b c. unfold str_le. rewrite !Is_true_true. apply str_leb_trans.
Qed.

#[local] Instance str_le_antisym : AntiSymm (=) str_le.
Proof.
  intros a b. unfold str_le. rewrite !Is_true_true. apply str_leb_antisym.
Qed.

(** [sorted] forgets the order its argument came in. *)
Lemma sorted_Permutation l1 l2 : l1 ≡ₚ l2 → sorted l1 = sorted l2.
Proof.
  intros Hp. unfold sorted.
  apply (Sorted_unique str_le); try apply Sorted_merge_sort; try apply _.
  by rewrite !merge_sort_Permutation.
Qed.

Lemma elem_of_sorted n l : n ∈ sorted l ↔ n ∈ l.
Proof. unfold sorted. by rewrite merge_sort_Permutation. Qed.

(** ** Directory listings *)

Lemma strip_prefix_app p s : strip_prefix p (p ++ s) = Some s.
Proof. induction p as [|a p IH]; simpl; [done|]. by rewrite N.eqb_refl. Qed.

Lemma first_component_no_slash s : SLASH ∉ first_component s.
Proof.
  induction s as [|c s IH]; simpl; [apply not_elem_of_nil|].
  destruct (c =? SLASH) eqn:Hc; [apply not_elem_of_nil|].
  apply N.eqb_neq in Hc. rewrite elem_of_cons. intros [?|?]; [congruence|done].
Qed.

Lemma entry_of_no_slash d path n : entry_of d path = Some n → SLASH ∉ n.
Proof.
  unfold entry_of. destruct (strip_prefix _ _); simpl; [|done].
  intros [= <-]. apply first_component_no_slash.
Qed.

Lemma os_listdir_no_slash d fs names n : os_listdir d fs names → n ∈ names → SLASH ∉ n.
Proof.
  intros [_ Hin] (path & _ & He)%Hin. by eapply entry_of_no_slash.
Qed.

(** Two listings of one directory differ in order only. *)
Lemma os_listdir_Permutation d fs names1 names2 :
  os_listdir d fs names1 → os_listdir d fs names2 → names1 ≡ₚ names2.
Proof.
  intros [Hnd1 H1] [Hnd2 H2]. apply NoDup_Permutation; [done..|].
  intros n. by rewrite H1, H2.
Qed.

Lemma listdir_os_listdir d fs : os_listdir d fs (listdir d fs).
Proof.
  split; [apply NoDup_remove_dups|].
  intros n. unfold listdir. rewrite elem_of_remove_dups, list_elem_of_omap. split.
  - intros (path & Hin & He). exists path. split; [|done].
    apply list_elem_of_fmap in Hin as ([p v] & -> & Hin).
    apply elem_of_map_to_list in Hin. simpl. eauto.
  - intros (path & [v Hv] & He). exists path. split; [|done].
    apply list_elem_of_fmap. exists (path, v). split; [done|].
    by apply elem_of_map_to_list.
Qed.

(** The consolidated file lies outside the output directory, so writing it
    leaves the listing of the directory as it was. *)
Lemma os_listdir_write_tsv text fs names :
  os_listdir OUTPUT_DIR (write_text TSV_FILE text fs) names
  ↔ os_listdir OUTPUT_DIR fs names.
Proof.
  assert (∀ n, (∃ path, is_Some (text_files (write_text TSV_FILE text fs) !! path)
                        ∧ entry_of OUTPUT_DIR path = Some n)
               ↔ (∃ path, is_Some (text_files fs !! path)
                          ∧ entry_of OUTPUT_DIR path = Some n)) as Hsame.
  { intros n. split; intros (path & Hp & He); exists path; (split; [|done]);
      (destruct (decide (path = TSV_FILE)) as [->|Hne];
        [by vm_compute in He|]); simpl in *.
    - by rewrite lookup_insert_ne in Hp.
    - by rewrite lookup_insert_ne. }
  unfold os_listdir. split; intros [Hnd Hin]; (split; [done|]);
    intros n; rewrite Hin; [|symmetry]; apply Hsame.
Qed.

Lemma join_output_dir n :
  SLASH ∉ n → os_path_join OUTPUT_DIR n = OUTPUT_DIR ++ [SLASH] ++ n.
Proof.
  intros Hn. unfold os_path_join.
  replace (startswith n [SLASH]) with false.
  - by replace (bool_decide (OUTPUT_DIR = []) || endswith OUTPUT_DIR [SLASH]) with false
      by (by vm_compute).
  - destruct n as [|c n]; [done|]. cbn [startswith].
    destruct (SLASH =? c) eqn:Hc; [|done].
    apply N.eqb_eq in Hc as <-. destruct Hn. by left.
Qed.

Lemma join_output_dir_not_tsv n : SLASH ∉ n → os_path_join OUTPUT_DIR n ≠ TSV_FILE.
Proof.
  intros Hn. rewrite join_output_dir by done. intros Heq.
  pose proof (strip_prefix_app (OUTPUT_DIR ++ [SLASH]) n) as Hp.
  replace ((OUTPUT_DIR ++ [SLASH]) ++ n) with TSV_FILE in Hp
    by (by rewrite <- Heq, <- app_assoc).
  by vm_compute in Hp.
Qed.

(** ** The aggregator *)

Lemma write_text_twice path text fs :
  write_text path text (write_text path text fs) = write_text path text fs.
Proof.
  unfold write_text. cbn [text_files checkpoint_file]. by rewrite insert_insert_eq.
Qed.

Lemma read_entry_write_tsv text fs n :
  SLASH ∉ n → read_entry (write_text TSV_FILE text fs) n = read_entry fs n.
Proof.
  intros Hn. unfold read_entry, read_text. simpl.
  by rewrite lookup_insert_ne by (apply not_eq_sym, join_output_dir_not_tsv, Hn).
Qed.

Lemma mapM_agree {A B} (f g : A → option B) l :
  (∀ x, x ∈ l → f x = g x) → mapM f l = mapM g l.
Proof.
  induction l as [|x l IH]; intros H; [done|].
  simpl. rewrite (H x) by (by left). rewrite IH; [done|].
  intros y Hy. apply H. by right.
Qed.

(** X2.  The consolidated file depends on the directory, not on the order
    in which [os.listdir] names its entries. *)
Lemma regenerate_listing_order fs names1 names2 :
  os_listdir OUTPUT_DIR fs names1 → os_listdir OUTPUT_DIR fs names2 →
  regenerate_tsv_from_output names1 fs = regenerate_tsv_from_output names2 fs.
Proof.
  intros H1 H2. unfold regenerate_tsv_from_output.
  by rewrite (sorted_Permutation _ _ (os_listdir_Permutation _ _ _ _ H1 H2)).
Qed.

Lemma regenerate_two_chapters_any_order :
  regenerate_tsv_from_output (listdir OUTPUT_DIR two_chapters_fs) two_chapters_fs
  = regenerate_tsv_from_output
      [py "0002 第2章 终（尾）.txt"; py "0001 第1章 起（序）.txt"] two_chapters_fs.
Proof.
  apply regenerate_listing_order; [apply listdir_os_listdir|].
  split.
  - apply (bool_decide_unpack _). by vm_compute.
  - intros n. rewrite <- (proj2 (listdir_os_listdir OUTPUT_DIR two_chapters_fs) n).
    change (listdir OUTPUT_DIR two_chapters_fs)
      with (Datatypes.id (listdir OUTPUT_DIR two_chapters_fs)).
    vm_compute Datatypes.id.
    rewrite !elem_of_cons. tauto.
Defined.

(** C8.  Running the aggregator a second time, on the file system the
    first run left and whatever the order in which the directory is listed
    each time, succeeds and leaves every file, the consolidated one
    included, exactly as the first run left it: the file is rebuilt from the
    output directory, never appended to. *)
Theorem C8_aggregation_idempotent fs names1 names2 fs1 :
  os_listdir OUTPUT_DIR fs names1 →
  regenerate_tsv_from_output names1 fs = Some fs1 →
  os_listdir OUTPUT_DIR fs1 names2 →
  regenerate_tsv_from_output names2 fs1 = Some fs1.
Proof.
  intros H1 Hrun H2. unfold regenerate_tsv_from_output in *.
  destruct (mapM (read_entry fs) (sorted names1)) as [entries|] eqn:Hm; [|done].
  simpl in Hrun. injection Hrun as <-.
  apply (proj1 (os_listdir_write_tsv _ _ _)) in H2.
  rewrite (sorted_Permutation _ _ (os_listdir_Permutation _ _ _ _ H2 H1)).
  rewrite (mapM_agree _ (read_entry fs)), Hm.
  - simpl. f_equal. apply write_text_twice.
  - intros n Hn. apply (proj1 (elem_of_sorted _ _)) in Hn.
    apply read_entry_write_tsv.
    exact (os_listdir_no_slash _ _ _ _ H1 Hn).
Qed.

Lemma C8_two_chapters_rebuilt_twice :
  ∃ fs1,
    regenerate_tsv_from_output (listdir OUTPUT_DIR two_chapters_fs) two_chapters_fs
      = Some fs1 ∧
    regenerate_tsv_from_output (listdir OUTPUT_DIR fs1) fs1 = Some fs1 ∧
    is_Some (text_files fs1 !! TSV_FILE).
Proof.
  destruct (regenerate_tsv_from_output (listdir OUTPUT_DIR two_chapters_fs)
              two_chapters_fs) as [fs1|] eqn:Hrun; [|by vm_compute in Hrun].
  exists fs1. split; [done|]. split.
  - exact (C8_aggregation_idempotent two_chapters_fs _ _ fs1
             (listdir_os_listdir _ _) Hrun (listdir_os_listdir _ _)).
  - vm_compute in Hrun. injection Hrun as <-. eexists. by vm_compute.
Defined.

(** ** What the aggregator reads back from a worker's file *)

Lemma universal_newlines_app t s :
  CR ∉ t → universal_newlines (t ++ s) = t ++ universal_newlines s.
Proof.
  induction t as [|c t IH]; intros Hcr; [done|].
  cbn [app universal_newlines].
  destruct (c =? CR) eqn:Hc.
  - apply N.eqb_eq in Hc as ->. destruct Hcr. by left.
  - rewrite IH; [done|]. intros ?. apply Hcr. by right.
Qed.

Lemma readlines_first_line t s :
  LF ∉ t → readlines (t ++ LF :: s) = (t ++ [LF]) :: readlines s.
Proof.
  induction t as [|c t IH]; intros Hlf.
  - reflexivity.
  - cbn [app readlines]. destruct (c =? LF) eqn:Hc.
    + apply N.eqb_eq in Hc as ->. destruct Hlf. by left.
    + rewrite IH; [done|]. intros ?. apply Hlf. by right.
Qed.

Lemma concat_readlines s : concat (readlines s) = s.
Proof.
  induction s as [|c s IH]; [done|]. cbn [readlines].
  destruct (c =? LF).
  - simpl. by rewrite IH.
  - destruct (readlines s) as [|l ls]; simpl in *; by rewrite <- IH.
Qed.

Lemma lstrip_idemp s : lstrip (lstrip s) = lstrip s.
Proof.
  induction s as [|c s IH]; [done|]. simpl.
  destruct (is_space c) eqn:Hc; [done|]. simpl. by rewrite Hc.
Qed.

Lemma lstrip_keeps_last a c :
  is_space c = false → ∃ w, lstrip (a ++ [c]) = w ++ [c].
Proof.
  intros Hc. induction a as [|x a IH]; simpl.
  - rewrite Hc. by exists [].
  - destruct (is_space x); [done|]. by exists (x :: a).
Qed.

(** A string that [strip] returned has no white space at either end. *)
Lemma strip_ends h : lstrip (strip h) = strip h ∧ lstrip (rev (strip h)) = rev (strip h).
Proof.
  unfold strip, rstrip. rewrite rev_involutive, lstrip_idemp. split; [|done].
  destruct (lstrip h) as [|c u] eqn:Hu; [done|].
  assert (is_space c = false) as Hc.
  { destruct (is_space c) eqn:Hc; [|done].
    pose proof (lstrip_idemp h) as Hi. rewrite Hu in Hi. simpl in Hi.
    rewrite Hc in Hi.
    assert (length (lstrip u) ≤ length u)%nat as Hlen.
    { clear. induction u as [|x u IH]; simpl; [done|].
      destruct (is_space x); simpl; lia. }
    rewrite Hi in Hlen. simpl in Hlen. lia. }
  cbn [rev]. destruct (lstrip_keeps_last (rev u) c Hc) as [w Hw].
  unfold pystr, pychar in *. rewrite Hw.
  rewrite rev_app_distr. simpl. by rewrite Hc.
Qed.

Lemma strip_title_line t :
  lstrip t = t → lstrip (rev t) = rev t → strip (t ++ [LF]) = t.
Proof.
  intros Hl Hr. unfold strip, rstrip.
  assert (lstrip (t ++ [LF]) = (if t is [] then [] else t ++ [LF])) as ->.
  { destruct t as [|c t]; [done|]. simpl in *.
    destruct (is_space c) eqn:Hc; [|done].
    assert (length (lstrip t) ≤ length t)%nat as Hlen.
    { clear. induction t as [|x u IH]; simpl; [done|].
      destruct (is_space x); simpl; lia. }
    rewrite Hl in Hlen. simpl in Hlen. lia. }
  destruct t as [|c t]; [done|].
  rewrite rev_app_distr. cbn [rev app lstrip].
  replace (is_space LF) with true by done.
  change (rev t ++ [c]) with (rev (c :: t)). by rewrite Hr, rev_involutive.
Qed.

(** X1.  The entry the aggregator builds from the file a worker wrote for
    a trimmed, one-line title: the title without its first four characters,
    a line feed, the trimmed text, a line feed. *)
Lemma read_entry_of_worker_file fs (filename h result : pystr) :
  endswith filename (py ".txt") = true →
  LF ∉ strip h → CR ∉ strip h →
  text_files fs !! os_path_join OUTPUT_DIR filename
    = Some (strip h ++ [LF; LF] ++ result) →
  read_entry fs filename
  = Some [drop 4 (strip h) ++ [LF] ++ strip (universal_newlines result) ++ [LF]].
Proof.
  intros Hext Hlf Hcr Hfile. unfold read_entry, read_text.
  rewrite Hext. unfold pystr, pychar in *. rewrite Hfile. simpl.
  rewrite universal_newlines_app by done.
  change (universal_newlines (LF :: LF :: result))
    with (LF :: LF :: universal_newlines result).
  rewrite readlines_first_line by done.
  change (readlines (LF :: universal_newlines result))
    with ([LF] :: readlines (universal_newlines result)).
  cbn [lookup list_lookup drop]. simpl.
  destruct (strip_ends h) as [Hl Hr].
  by rewrite drop_0, strip_title_line, concat_readlines.
Qed.

Lemma read_entry_chapter1 :
  read_entry two_chapters_fs (py "0001 第1章 起（序）.txt")
  = Some [py "起（序）
甲
乙
"].
Proof.
  rewrite (read_entry_of_worker_file two_chapters_fs _ title1 (py "甲
乙")).
  - by vm_compute.
  - by vm_compute.
  - apply (bool_decide_unpack _). by vm_compute.
  - apply (bool_decide_unpack _). by vm_compute.
  - by vm_compute.
Defined.

(** C1.  The run of the specification's example, both chapters succeeding:
    the output file of chapter 1 starts with the title line, yet the block
    the aggregator builds from it starts four characters into that title;
    the consolidated file does not begin with the title. *)
Theorem C1_consolidated_block_drops_title_characters :
  ∃ fs,
    split_and_process_async MAX_CHAPTERS example_parts always_ok always_written empty_fs
      = Some fs ∧
    text_files fs !! output_path 1 title1 = Some (py "第1章 起（序）

甲
乙") ∧
    text_files fs !! TSV_FILE = Some (py "起（序）
甲
乙

终（尾）
甲
乙

") ∧
    ∀ tsv, text_files fs !! TSV_FILE = Some tsv → startswith tsv title1 = false.
Proof.
  eexists. split; [by vm_compute|]. split; [by vm_compute|]. split; [by vm_compute|].
  intros tsv Htsv. vm_compute in Htsv. injection Htsv as <-. by vm_compute.
Qed.

(** * Further properties of the worker *)

Lemma stored_at_Some env disk a c :
  stored_at env disk a = Some c ↔ env a = Response 200 (Some c) ∧ disk a = Written.
Proof.
  unfold stored_at. split.
  - destruct (env a) as [|status [c'|]]; try done.
    destruct (disk a); try done.
    destruct (status =? 200)%Z eqn:Hs; [|done].
    apply Z.eqb_eq in Hs as ->. by intros [= ->].
  - by intros [-> ->].
Qed.

Lemma stored_at_None env disk a :
  stored_at env disk a = None ↔ failed (env a) ∨ disk a ≠ Written.
Proof.
  unfold stored_at. split.
  - destruct (env a) as [|status [c'|]]; simpl; [by left| |by left; right].
    destruct (disk a); [by right|by right|].
    destruct (status =? 200)%Z eqn:Hs; [done|]. apply Z.eqb_neq in Hs. by left; left.
  - destruct (env a) as [|status [c'|]]; [done| |done].
    destruct (disk a); [done|done|].
    intros [[Hs|?]|?]; [|done..]. apply Z.eqb_neq in Hs. by rewrite Hs.
Qed.

Lemma first_good_at env disk remaining attempt k c :
  (attempt ≤ k < attempt + remaining)%nat →
  (∀ a, (attempt ≤ a < k)%nat → failed (env a) ∨ disk a ≠ Written) →
  env k = Response 200 (Some c) → disk k = Written →
  first_good env disk remaining attempt = Some c.
Proof.
  revert attempt. induction remaining as [|r IH]; intros attempt Hk Hfail Hok Hw; [lia|].
  cbn [first_good].
  destruct (decide (attempt = k)) as [->|Hne].
  - by rewrite (proj2 (stored_at_Some env disk k c)).
  - rewrite (proj2 (stored_at_None env disk attempt)) by (apply Hfail; lia).
    apply IH; [lia| |done..]. intros a Ha. apply Hfail. lia.
Qed.

Lemma first_good_of_success env disk k c max_retries :
  succeeds_at env disk k c → (k ≤ max_retries)%nat →
  first_good env disk max_retries 1 = Some c.
Proof.
  intros (Hk & Hfail & Hok & Hw) Hmax. apply (first_good_at _ _ _ _ k); [lia|done..].
Qed.

(** X3.  A worker one of whose attempts within the retry budget is answered
    200 with content and has its write go through, every earlier attempt
    having failed (429, another status, no response, an unparsable body, or
    a good reply whose [open] or [write] raised), succeeds: it returns the
    title with the tab-separated line and leaves the file system as it was
    but for its output file, which holds the title, an empty line and the
    trimmed content. *)
Theorem worker_succeeds_at_first_good_reply
    env disk title body chapter_num max_retries fs k c :
  succeeds_at env disk k c → (k ≤ max_retries)%nat →
  call_openai_format env disk title body chapter_num max_retries fs
  = (Some (title, title ++ [TAB] ++ escape_newlines (strip c)),
     write_text (output_path chapter_num title) (title ++ [LF; LF] ++ strip c) fs).
Proof.
  intros Hs Hmax.
  by rewrite call_openai_format_first_good, (first_good_of_success _ _ k c).
Qed.

Lemma fourth_attempt_succeeds :
  succeeds_at third_time_lucky fourth_write_lucky 4 (py "  甲
乙  ").
Proof.
  split; [lia|]. split; [|done].
  intros a Ha. assert (a = 1 ∨ a = 2 ∨ a = 3)%nat as [-> | [-> | ->]] by lia.
  - left. by left.
  - left. by left.
  - by right.
Qed.

Lemma worker_fourth_time_lucky :
  call_openai_format third_time_lucky fourth_write_lucky title1 (py "正文一") 1
    DEFAULT_MAX_RETRIES empty_fs
  = (Some (title1, title1 ++ [TAB] ++ py "甲\n乙"),
     write_text (output_path 1 title1) (title1 ++ [LF; LF] ++ py "甲
乙") empty_fs).
Proof.
  rewrite (worker_succeeds_at_first_good_reply third_time_lucky fourth_write_lucky
             title1 (py "正文一") 1 DEFAULT_MAX_RETRIES empty_fs 4 _
             fourth_attempt_succeeds)
    by (unfold DEFAULT_MAX_RETRIES; lia).
  by vm_compute.
Defined.

(** X4.  Whatever the replies and the disk, a worker leaves the checkpoint
    file alone and changes no text file other than the one at its own
    output path. *)
Theorem worker_touches_only_its_file env disk title body chapter_num max_retries fs r fs' :
  call_openai_format env disk title body chapter_num max_retries fs = (r, fs') →
  checkpoint_file fs' = checkpoint_file fs ∧
  ∀ p, p ≠ output_path chapter_num title → text_files fs' !! p = text_files fs !! p.
Proof. intros (? & ? & _)%call_openai_format_cases. done. Qed.

Lemma worker_leaves_other_chapter_alone :
  text_files (call_openai_format third_time_lucky fourth_write_lucky title1
                (py "正文一") 1 DEFAULT_MAX_RETRIES two_chapters_fs).2
    !! output_path 2 title2
  = text_files two_chapters_fs !! output_path 2 title2.
Proof.
  destruct (call_openai_format third_time_lucky fourth_write_lucky title1
              (py "正文一") 1 DEFAULT_MAX_RETRIES two_chapters_fs) as [r fs1] eqn:Hc.
  apply (worker_touches_only_its_file _ _ _ _ _ _ _ _ _ Hc).
  intros Heq. apply output_path_inj in Heq. lia.
Defined.

Lemma escape_newlines_no_lf s : LF ∉ escape_newlines s.
Proof.
  induction s as [|c s IH]; [apply not_elem_of_nil|].
  cbn [escape_newlines flat_map]. destruct (c =? LF) eqn:Hc.
  - rewrite elem_of_app. intros [H|H]; [|done].
    apply elem_of_cons in H as [H|H]; [done|].
    apply elem_of_cons in H as [H|H]; [done|by apply elem_of_nil in H].
  - apply N.eqb_neq in Hc. rewrite elem_of_app.
    intros [H|H]; [|done]. apply list_elem_of_singleton in H. congruence.
Qed.

(** X5.  The line a successful worker returns is its title, a tab, and a
    text that holds no line feed: every line feed of the trimmed reply has
    become backslash-n. *)
Theorem worker_line_has_no_line_feed
    env disk title body chapter_num max_retries fs t line fs' :
  call_openai_format env disk title body chapter_num max_retries fs
  = (Some (t, line), fs') →
  t = title ∧ ∃ text, line = title ++ [TAB] ++ text ∧ LF ∉ text.
Proof.
  intros (_ & _ & [?|(c & [= -> ->] & _)])%call_openai_format_cases; [done|].
  split; [done|]. eexists. split; [done|]. apply escape_newlines_no_lf.
Qed.

Lemma worker_line_of_two_line_reply :
  ∃ text, title1 ++ [TAB] ++ py "甲\n乙" = title1 ++ [TAB] ++ text ∧ LF ∉ text.
Proof.
  assert (call_openai_format third_time_lucky (always_written 0%nat) title1
            (py "正文一") 1 DEFAULT_MAX_RETRIES empty_fs
          = (Some (title1, title1 ++ [TAB] ++ py "甲\n乙"),
             write_text (output_path 1 title1) (py "第1章 起（序）

甲
乙") empty_fs)) as Hrun by (by vm_compute).
  exact (proj2 (worker_line_has_no_line_feed _ _ _ _ _ _ _ _ _ _ Hrun)).
Defined.

(** X16.  A worker is decided by its attempts that get a reply of 200 with
    content: the first of them, within [max_retries] attempts, whose write
    goes through makes it store and return the trimmed content; when there
    is none it returns [None], and its output file is untouched unless the
    write of some attempt raised after [open], in which case the file holds
    what the last such write left.  Every other attempt (429, another
    status, no response, an unparsable body, a raising [open]) only uses up
    its turn. *)
Theorem worker_is_its_first_good_reply env disk title body chapter_num max_retries fs :
  call_openai_format env disk title body chapter_num max_retries fs
  = match first_good env disk max_retries 1 with
    | Some c => (Some (title, title ++ [TAB] ++ escape_newlines (strip c)),
                 write_text (output_path chapter_num title)
                   (title ++ [LF; LF] ++ strip c) fs)
    | None => (None, match debris env disk max_retries 1 with
                     | Some kept => write_text (output_path chapter_num title) kept fs
                     | None => fs
                     end)
    end.
Proof. apply attempt_loop_first_good. lia. Qed.

(** * Further properties of the schedule *)

Lemma output_path_inj_title n1 t1 n2 t2 :
  output_path n1 t1 = output_path n2 t2 → t1 = t2.
Proof.
  intros H. pose proof (output_path_inj _ _ _ _ H) as ->.
  rewrite !output_path_eq in H.
  apply app_inv_head in H. simpl in H. injection H as H.
  apply app_inv_head in H. injection H as H.
  by apply app_inv_tail in H.
Qed.

Lemma strip_idemp s : strip (strip s) = strip s.
Proof.
  destruct (strip_ends s) as [Hl Hr].
  unfold strip at 1, rstrip. by rewrite Hl, Hr, rev_involutive.
Qed.

Lemma replace_newlines_no_lf s : LF ∉ replace_newlines_by_space s.
Proof.
  unfold replace_newlines_by_space. intros (c & Hc & _)%list_elem_of_fmap.
  destruct (c =? LF) eqn:E; [done|]. apply N.eqb_neq in E. congruence.
Qed.

(** X6.  A negative cap is truthy and below every chapter number: the loop
    breaks at the first chapter that is not checkpointed, and nothing is
    scheduled. *)
Theorem negative_cap_schedules_nothing (m : Z) cp pre segs :
  (m < 0)%Z → schedule (Some m) cp (split_parts pre segs) = Some [].
Proof.
  intros Hm. rewrite schedule_spec. unfold limit.
  destruct (m =? 0)%Z eqn:H0; [apply Z.eqb_eq in H0; lia|].
  by replace (Z.to_nat (m - Z.of_nat 0)) with 0%nat by lia.
Qed.

Lemma negative_cap_on_example :
  schedule (Some (-1)%Z) ∅ example_parts = Some [].
Proof. apply (negative_cap_schedules_nothing (-1) ∅ [] example_segments). lia. Defined.

(** X7.  The tasks of a run are numbered 1, 2, ... in schedule order, and
    no two of them share an output path: each worker owns its file. *)
Theorem scheduled_paths_distinct cap cp pre segs :
  ∃ tasks,
    schedule cap cp (split_parts pre segs) = Some tasks ∧
    ∀ i j t1 t2, tasks !! i = Some t1 → tasks !! j = Some t2 →
      task_chapter_num t1 = S i ∧
      (output_path (task_chapter_num t1) (task_title t1)
       = output_path (task_chapter_num t2) (task_title t2) → i = j).
Proof.
  eexists. split; [apply schedule_spec|].
  intros i j t1 t2 (H1 & _)%scheduled_task (H2 & _)%scheduled_task.
  split; [done|]. intros Hp%output_path_inj. lia.
Qed.

(** X8.  Every scheduled task carries a title without white space at
    either end ([strip] leaves it as it is) and a body without line feed. *)
Theorem scheduled_chapters_are_normalised cap cp pre segs :
  ∃ tasks,
    schedule cap cp (split_parts pre segs) = Some tasks ∧
    ∀ t, t ∈ tasks → strip (task_title t) = task_title t ∧ LF ∉ task_body t.
Proof.
  eexists. split; [apply schedule_spec|].
  intros t [i Ht]%list_elem_of_lookup.
  apply scheduled_task in Ht as (_ & Hc & _).
  apply list_elem_of_lookup_2, limit_sublist in Hc.
  unfold pending in Hc. apply list_elem_of_filter in Hc as [_ Hc].
  apply list_elem_of_fmap in Hc as ([h b] & Heq & _).
  unfold chapter_of in Heq. simpl in Heq. injection Heq as -> ->.
  split; [apply strip_idemp | apply replace_newlines_no_lf].
Qed.

(** * Further properties of the run *)

Lemma gather_success_result envs disks i tasks fs rs fs' j t k c :
  gather envs disks i tasks fs = (rs, fs') → tasks !! j = Some t →
  succeeds_at (envs (i + j)%nat) (disks (i + j)%nat) k c →
  (k ≤ DEFAULT_MAX_RETRIES)%nat →
  rs !! j = Some (Some (task_title t,
                        task_title t ++ [TAB] ++ escape_newlines (strip c))).
Proof.
  intros Hg Ht Hs Hk.
  destruct (gather_lookup _ _ _ _ _ _ _ _ _ Hg Ht) as (fsj & r & fsj' & Hr & Hc).
  rewrite call_openai_format_first_good, (first_good_of_success _ _ k c) in Hc by done.
  by injection Hc as <- _.
Qed.

Lemma gather_success_file envs disks i tasks fs rs fs' j t k c :
  gather envs disks i tasks fs = (rs, fs') → tasks !! j = Some t →
  succeeds_at (envs (i + j)%nat) (disks (i + j)%nat) k c →
  (k ≤ DEFAULT_MAX_RETRIES)%nat →
  (∀ j' t', tasks !! j' = Some t' →
     output_path (task_chapter_num t') (task_title t')
     = output_path (task_chapter_num t) (task_title t) → j' = j) →
  text_files fs' !! output_path (task_chapter_num t) (task_title t)
  = Some (task_title t ++ [LF; LF] ++ strip c).
Proof.
  revert i fs rs fs' j. induction tasks as [|t0 tasks IH]; intros i fs rs fs' j; [done|].
  simpl. destruct (call_openai_format _ _ _ _ _ _ _) as [r fs1] eqn:Hc.
  destruct (gather envs disks (S i) tasks fs1) as [rs' fs2] eqn:Hg.
  intros [= <- <-]. destruct j as [|j]; simpl.
  - intros [= ->] Hs Hk Hown. rewrite Nat.add_0_r in Hs.
    rewrite call_openai_format_first_good, (first_good_of_success _ _ k c) in Hc by done.
    injection Hc as <- <-.
    destruct (decide (text_files fs2 !! output_path (task_chapter_num t) (task_title t)
                      = text_files
                          (write_text (output_path (task_chapter_num t) (task_title t))
                             (task_title t ++ [LF; LF] ++ strip c) fs)
                        !! output_path (task_chapter_num t) (task_title t)))
      as [Heq|Hne].
    + etrans; [exact Heq|]. simpl. apply lookup_insert_eq.
    + apply (gather_files _ _ _ _ _ _ _ Hg) in Hne as (j' & t' & Ht' & Hp & _).
      symmetry in Hp. by apply (Hown (S j') t' Ht') in Hp.
  - intros Ht Hs Hk Hown.
    apply (IH (S i) fs1 rs' fs2 j Hg Ht).
    + by replace (S i + j)%nat with (i + S j)%nat by lia.
    + done.
    + intros j' t' Ht' Hp. specialize (Hown (S j') t' Ht' Hp). lia.
Qed.

(** X9.  In a run, a worker one of whose five attempts is answered 200 with
    content and has its write go through (the attempts before it failing)
    leaves all three traces: its result is in the gathered results, its
    output file holds the title, an empty line and the trimmed reply once
    all workers have settled (no other worker overwrites it), and its title
    is saved as ["done"]. *)
Theorem run_records_success cap pre segs envs disks fs :
  ∃ tasks results fs1,
    schedule cap (load_checkpoint fs) (split_parts pre segs) = Some tasks ∧
    gather envs disks 0 tasks fs = (results, fs1) ∧
    process_chapters cap (split_parts pre segs) envs disks fs
      = Some (save_checkpoint (mark_done (load_checkpoint fs) results) fs1) ∧
    ∀ i t k c, tasks !! i = Some t →
      succeeds_at (envs i) (disks i) k c → (k ≤ DEFAULT_MAX_RETRIES)%nat →
      results !! i = Some (Some (task_title t,
                                 task_title t ++ [TAB] ++ escape_newlines (strip c))) ∧
      text_files fs1 !! output_path (S i) (task_title t)
        = Some (task_title t ++ [LF; LF] ++ strip c) ∧
      mark_done (load_checkpoint fs) results !! task_title t = Some DONE.
Proof.
  destruct (gather envs disks 0
              (number_from 0 (limit cap 0 (pending (load_checkpoint fs) segs))) fs)
    as [results fs1] eqn:Hg.
  eexists _, results, fs1. split; [apply schedule_spec|]. split; [exact Hg|]. split.
  { unfold process_chapters. rewrite schedule_spec. simpl. by rewrite Hg. }
  intros i t k c Ht Hs Hk.
  pose proof (gather_success_result _ _ _ _ _ _ _ _ _ _ _ Hg Ht Hs Hk) as Hr.
  split; [done|]. split.
  - pose proof Ht as (Hnum & _)%scheduled_task. rewrite <- Hnum.
    eapply gather_success_file; eauto.
    intros j' t' (Hj & _)%scheduled_task Hp%output_path_inj. lia.
  - eapply mark_done_added, list_elem_of_lookup_2, Hr.
Qed.

Lemma run_records_chapter2_of_example :
  ∃ fs',
    process_chapters None example_parts first_fails always_written empty_fs = Some fs' ∧
    text_files fs' !! output_path 2 title2 = Some (title2 ++ [LF; LF] ++ py "甲") ∧
    load_checkpoint fs' !! title2 = Some DONE.
Proof.
  destruct (run_records_success None [] example_segments first_fails always_written
              empty_fs) as (tasks & results & fs1 & Hs & Hg & Hp & Hok).
  rewrite schedule_spec in Hs. injection Hs as <-.
  destruct (Hok 1%nat (mkTask title2 (py "正文二") 2) 1%nat (py "甲") eq_refl)
    as (_ & Hfile & Hcp).
  - split; [lia|]. split; [intros a Ha; lia|done].
  - unfold DEFAULT_MAX_RETRIES. lia.
  - eexists. split; [exact Hp|]. split; [exact Hfile|exact Hcp].
Defined.

Lemma mark_done_keeps_keys cp rs k : is_Some (cp !! k) → is_Some (mark_done cp rs !! k).
Proof.
  unfold mark_done. revert cp. induction rs as [|r rs IH]; intros cp Hk; [done|].
  simpl. apply IH. destruct r as [[title line]|]; [|done].
  destruct (decide (title = k)) as [->|Hne].
  - rewrite lookup_insert_eq. eauto.
  - by rewrite lookup_insert_ne.
Qed.

(** X10.  The keys of the checkpoint after marking are the keys it had and
    the titles of the successful results, no others: a failed result adds
    no key. *)
Theorem mark_done_keys cp rs k :
  is_Some (mark_done cp rs !! k)
  ↔ is_Some (cp !! k) ∨ ∃ line, Some (k, line) ∈ rs.
Proof.
  split.
  - unfold mark_done. revert cp. induction rs as [|r rs IH]; intros cp; simpl; [by left|].
    intros [H|[line H]]%IH.
    + destruct r as [[title line]|]; [|by left].
      destruct (decide (title = k)) as [->|Hne].
      * right. exists line. by left.
      * rewrite lookup_insert_ne in H by done. by left.
    + right. exists line. by right.
  - intros [H|[line H]].
    + by apply mark_done_keeps_keys.
    + erewrite mark_done_added by done. eauto.
Qed.

(** X11.  Resumption: whatever the next run's cap and document, it
    schedules no chapter under a title for which a worker of this run
    succeeded. *)
Theorem next_run_skips_successes cap pre segs envs disks fs cap2 pre2 segs2 :
  ∃ tasks results fs1 fs' tasks2,
    schedule cap (load_checkpoint fs) (split_parts pre segs) = Some tasks ∧
    gather envs disks 0 tasks fs = (results, fs1) ∧
    process_chapters cap (split_parts pre segs) envs disks fs = Some fs' ∧
    schedule cap2 (load_checkpoint fs') (split_parts pre2 segs2) = Some tasks2 ∧
    ∀ i title line, results !! i = Some (Some (title, line)) →
      title ∉ map task_title tasks2.
Proof.
  destruct (gather envs disks 0
              (number_from 0 (limit cap 0 (pending (load_checkpoint fs) segs))) fs)
    as [results fs1] eqn:Hg.
  eexists _, results, fs1, _, _. split; [apply schedule_spec|]. split; [exact Hg|]. split.
  { unfold process_chapters. rewrite schedule_spec. simpl. by rewrite Hg. }
  split; [apply schedule_spec|].
  intros i title line Hr (t & -> & Ht)%list_elem_of_fmap.
  apply list_elem_of_lookup in Ht as [j Ht].
  apply scheduled_task in Ht as (_ & _ & Hnone).
  change (load_checkpoint (save_checkpoint ?m _)) with m in Hnone.
  rewrite (mark_done_added _ _ _ line) in Hnone; [done|].
  by eapply list_elem_of_lookup_2.
Qed.

Lemma pending_all_done cp segs :
  (∀ c, c ∈ map chapter_of segs → is_Some (cp !! c.1)) → pending cp segs = [].
Proof.
  unfold pending. induction (map chapter_of segs) as [|c cs IH]; intros H; [done|].
  rewrite filter_cons, decide_False.
  - apply IH. intros c' Hc'. apply H. by right.
  - destruct (H c) as [v Hv]; [by left|]. congruence.
Qed.

(** The aggregator run again on what it left, as the next run does. *)
Lemma regenerate_again fs names1 names2 fs1 :
  os_listdir OUTPUT_DIR fs names1 →
  regenerate_tsv_from_output names1 fs = Some fs1 →
  os_listdir OUTPUT_DIR fs1 names2 →
  regenerate_tsv_from_output names2 fs1 = Some fs1.
Proof.
  intros H1 Hrun H2. unfold regenerate_tsv_from_output in *.
  destruct (mapM (read_entry fs) (sorted names1)) as [entries|] eqn:Hm; [|done].
  simpl in Hrun. injection Hrun as <-.
  apply (proj1 (os_listdir_write_tsv _ _ _)) in H2.
  rewrite (sorted_Permutation _ _ (os_listdir_Permutation _ _ _ _ H2 H1)).
  rewrite (mapM_agree _ (read_entry fs)), Hm.
  - simpl. f_equal. apply write_text_over.
  - intros n Hn. apply (proj1 (elem_of_sorted _ _)) in Hn.
    apply read_entry_write_tsv. exact (os_listdir_no_slash _ _ _ _ H1 Hn).
Qed.

(** X12.  When every scheduled worker of an uncapped run gets through within
    its five attempts and the run completes, every chapter of the document
    is checkpointed: a next complete run over the same document
    ([split_and_process_async], aggregator included), whatever its cap,
    replies and disk, schedules nothing and leaves the file system, the
    consolidated file too, exactly as it is. *)
Theorem rerun_after_full_success_is_noop pre segs envs disks fs fs1 :
  (∀ i, ∃ k c, succeeds_at (envs i) (disks i) k c ∧ (k ≤ DEFAULT_MAX_RETRIES)%nat) →
  split_and_process_async MAX_CHAPTERS (split_parts pre segs) envs disks fs = Some fs1 →
  ∀ cap2 envs2 disks2,
    schedule cap2 (load_checkpoint fs1) (split_parts pre segs) = Some [] ∧
    split_and_process_async cap2 (split_parts pre segs) envs2 disks2 fs1 = Some fs1.
Proof.
  intros Hall. unfold split_and_process_async at 1, process_chapters.
  rewrite schedule_spec. simpl.
  destruct (gather _ _ _ _ _) as [results fsw] eqn:Hg. simpl.
  set (saved := mark_done (load_checkpoint fs) results).
  set (fs0 := save_checkpoint saved fsw).
  intros Hagg.
  assert (∃ text, fs1 = write_text TSV_FILE text fs0) as [text Hfs1].
  { unfold regenerate_tsv_from_output in Hagg.
    destruct (mapM _ _); [|done]. simpl in Hagg. injection Hagg as <-. eauto. }
  assert (load_checkpoint fs1 = saved) as Hload by (by rewrite Hfs1).
  assert (pending saved segs = []) as Hnone.
  { apply pending_all_done. intros c Hc.
    destruct (load_checkpoint fs !! c.1) as [v|] eqn:Hcp.
    - apply mark_done_keeps_keys. eauto.
    - assert (c ∈ pending (load_checkpoint fs) segs) as [i Hi]%list_elem_of_lookup
        by (unfold pending; by apply list_elem_of_filter).
      assert (number_from 0 (pending (load_checkpoint fs) segs) !! i
              = Some (mkTask c.1 c.2 (S i))) as Ht
        by (by rewrite number_from_lookup, Hi).
      destruct (Hall i) as (k & r & Hs & Hk).
      pose proof (gather_success_result _ _ _ _ _ _ _ _ _ _ _ Hg Ht Hs Hk) as Hr.
      unfold saved. erewrite mark_done_added; [eauto|].
      eapply list_elem_of_lookup_2, Hr. }
  intros cap2 envs2 disks2.
  assert (schedule cap2 (load_checkpoint fs1) (split_parts pre segs) = Some []) as Hs.
  { rewrite Hload, schedule_spec, Hnone. destruct cap2 as [m|]; [|done].
    unfold limit. destruct (m =? 0)%Z; [done|]. by rewrite take_nil. }
  split; [exact Hs|].
  unfold split_and_process_async, process_chapters. rewrite Hs. simpl.
  assert (save_checkpoint (load_checkpoint fs1) fs1 = fs1) as ->
    by (by rewrite Hload, Hfs1).
  eapply regenerate_again; [|exact Hagg|]; apply listdir_os_listdir.
Qed.

Lemma always_ok_succeeds i :
  ∃ k c, succeeds_at (always_ok i) (always_written i) k c ∧
         (k ≤ DEFAULT_MAX_RETRIES)%nat.
Proof.
  exists 1%nat, (py "甲
乙"). split; [|unfold DEFAULT_MAX_RETRIES; lia].
  split; [lia|]. split; [intros a Ha; lia|]. split; reflexivity.
Qed.

Lemma rerun_of_example_is_noop :
  ∃ fs1,
    split_and_process_async MAX_CHAPTERS example_parts always_ok always_written empty_fs
      = Some fs1 ∧
    split_and_process_async (Some 1%Z) example_parts first_fails always_written fs1
      = Some fs1.
Proof.
  destruct (split_and_process_async MAX_CHAPTERS example_parts always_ok
              always_written empty_fs) as [fs1|] eqn:Hrun.
  - exists fs1. split; [reflexivity|].
    exact (proj2 (rerun_after_full_success_is_noop [] example_segments always_ok
                    always_written empty_fs fs1 always_ok_succeeds Hrun
                    (Some 1%Z) first_fails always_written)).
  - vm_compute in Hrun. discriminate Hrun.
Defined.

(** X13.  A document without headings: nothing is scheduled and no worker
    runs; the run is the aggregator on the output directory as it stands,
    after the checkpoint loaded has been saved back (an empty one when there
    was no checkpoint file).  When it completes, the checkpoint file holds
    what was loaded and no text file but the consolidated one has
    changed. *)
Theorem empty_document_only_rebuilds cap pre envs disks fs :
  schedule cap (load_checkpoint fs) (split_parts pre []) = Some [] ∧
  split_and_process_async cap (split_parts pre []) envs disks fs
  = regenerate_tsv_from_output (listdir OUTPUT_DIR fs)
      (save_checkpoint (load_checkpoint fs) fs) ∧
  ∀ fs', split_and_process_async cap (split_parts pre []) envs disks fs = Some fs' →
    checkpoint_file fs' = Some (load_checkpoint fs) ∧
    ∀ p, p ≠ TSV_FILE → text_files fs' !! p = text_files fs !! p.
Proof.
  assert (schedule cap (load_checkpoint fs) (split_parts pre []) = Some []) as Hs.
  { rewrite schedule_spec. change (pending (load_checkpoint fs) []) with (@nil (pystr * pystr)).
    destruct cap as [m|]; [|done]. unfold limit. destruct (m =? 0)%Z; [done|].
    by rewrite take_nil. }
  assert (split_and_process_async cap (split_parts pre []) envs disks fs
          = regenerate_tsv_from_output (listdir OUTPUT_DIR fs)
              (save_checkpoint (load_checkpoint fs) fs)) as Hrun.
  { unfold split_and_process_async, process_chapters. by rewrite Hs. }
  split; [done|]. split; [done|].
  intros fs'. rewrite Hrun. unfold regenerate_tsv_from_output.
  destruct (mapM _ _); [|done]. simpl. intros [= <-]. split; [done|].
  intros p Hp. simpl. by rewrite lookup_insert_ne.
Qed.

(** X14.  A run never touches the output file of a chapter that was
    checkpointed when it started, under whatever ordinal an earlier run
    wrote it. *)
Theorem checkpointed_files_untouched cap pre segs envs disks fs :
  ∃ fs',
    process_chapters cap (split_parts pre segs) envs disks fs = Some fs' ∧
    ∀ title n, is_Some (load_checkpoint fs !! title) →
      text_files fs' !! output_path n title = text_files fs !! output_path n title.
Proof.
  unfold process_chapters. rewrite schedule_spec. simpl.
  destruct (gather _ _ _ _ _) as [results fs1] eqn:Hg.
  eexists. split; [done|]. intros title n [v Hv]. simpl.
  destruct (decide (text_files fs1 !! output_path n title
                    = text_files fs !! output_path n title)) as [|Hne]; [done|].
  apply (gather_files _ _ _ _ _ _ _ Hg) in Hne as (j & t & Ht & Hp & _).
  apply output_path_inj_title in Hp as ->.
  apply scheduled_task in Ht as (_ & _ & Hnone). congruence.
Qed.

(** * Further properties of the aggregator *)

Lemma universal_newlines_nil s : universal_newlines s = [] ↔ s = [].
Proof.
  split; [|by intros ->]. destruct s as [|c s]; [done|]. simpl.
  by destruct (c =? CR).
Qed.

Lemma readlines_nil s : readlines s = [] ↔ s = [].
Proof.
  split; [|by intros ->]. destruct s as [|c s]; [done|]. simpl.
  destruct (c =? LF); [done|]. by destruct (readlines s).
Qed.

Lemma read_entry_is_Some fs n :
  is_Some (read_entry fs n)
  ↔ (endswith n (py ".txt") = true →
     ∃ text, text_files fs !! os_path_join OUTPUT_DIR n = Some text ∧ text ≠ []).
Proof.
  unfold read_entry, read_text.
  destruct (endswith n (py ".txt")); [|by split; eauto].
  destruct (text_files fs !! os_path_join OUTPUT_DIR n) as [text|]; simpl.
  - destruct (readlines (universal_newlines text)) as [|l ls] eqn:Hl; simpl.
    + apply readlines_nil, universal_newlines_nil in Hl as ->. split.
      * by intros [? ?].
      * intros H. destruct (H eq_refl) as (? & [= <-] & ?). done.
    + split; [|eauto]. intros _ _. exists text. split; [done|]. by intros ->.
  - split; [by intros [? ?]|]. intros H. by destruct (H eq_refl) as (? & ? & _).
Qed.

(** X15.  The rebuild goes through exactly when every listed name ending
    in [.txt] is a regular file that is not empty; otherwise it raises
    (a directory of that name cannot be opened, an empty file has no first
    line) before the consolidated file is opened. *)
Theorem regenerate_succeeds_iff names fs :
  is_Some (regenerate_tsv_from_output names fs)
  ↔ ∀ n, n ∈ names → endswith n (py ".txt") = true →
      ∃ text, text_files fs !! os_path_join OUTPUT_DIR n = Some text ∧ text ≠ [].
Proof.
  unfold regenerate_tsv_from_output.
  assert (is_Some (mapM (read_entry fs) (sorted names))
          ↔ ∀ n, n ∈ names → is_Some (read_entry fs n)) as Hm.
  { rewrite mapM_is_Some, Forall_forall. split; intros H n Hn; apply H.
    - by apply elem_of_sorted.
    - by apply (proj1 (elem_of_sorted _ _)). }
  split.
  - intros Hrun n Hn. apply read_entry_is_Some, Hm; [|done].
    destruct (mapM _ _); [eauto|]. by destruct Hrun.
  - intros Hall.
    destruct (proj2 Hm) as [entries ->]; [|simpl; eauto].
    intros n Hn. apply read_entry_is_Some. by apply Hall.
Qed.

(** * The first attempt that stores *)

Lemma first_good_Some env disk r a c :
  first_good env disk r a = Some c →
  ∃ k, (a ≤ k < a + r)%nat ∧
       (∀ a', (a ≤ a' < k)%nat → failed (env a') ∨ disk a' ≠ Written) ∧
       env k = Response 200 (Some c) ∧ disk k = Written.
Proof.
  revert a. induction r as [|r IH]; intros a; [done|]. cbn [first_good].
  destruct (stored_at env disk a) as [c'|] eqn:Hst.
  - intros [= ->]. apply stored_at_Some in Hst as [? ?].
    exists a. split; [lia|]. split; [intros; lia|done].
  - apply stored_at_None in Hst.
    intros (k & Hk & Hfail & Hok)%IH. exists k. split; [lia|]. split; [|done].
    intros a' Ha'. destruct (decide (a' = a)) as [->|]; [done|]. apply Hfail. lia.
Qed.

Lemma good_reply_succeeds env disk c :
  good_reply env disk = Some c →
  ∃ k, succeeds_at env disk k c ∧ (k ≤ DEFAULT_MAX_RETRIES)%nat.
Proof.
  intros (k & Hk & Hfail & Hok & Hw)%first_good_Some. exists k. split; [|lia].
  split; [lia|]. split; [|done]. intros a Ha. apply Hfail. lia.
Qed.

Lemma debris_None env disk r a :
  (∀ a' kept, disk a' ≠ WriteRaises kept) → debris env disk r a = None.
Proof.
  intros Hno. revert a. induction r as [|r IH]; intros a; [done|].
  cbn [debris]. rewrite IH. unfold left_at.
  destruct (env a) as [|status [c|]]; [done| |done].
  destruct (disk a) as [|kept|] eqn:Hd; [done| |done]. by destruct (Hno a kept).
Qed.

(** * File names in ordinal order *)

Lemma digit_value_le c : is_digit c → (N.to_nat (c - 48) ≤ 9)%nat.
Proof. unfold is_digit. lia. Qed.

Lemma digits_value_mono l1 l2 a1 a2 :
  length l1 = length l2 → Forall is_digit l1 → Forall is_digit l2 →
  (a1 < a2)%nat → (digits_value l1 a1 < digits_value l2 a2)%nat.
Proof.
  unfold digits_value. intros Hlen H1. revert l2 a1 a2 Hlen.
  induction H1 as [|c1 l1 Hc1 _ IH]; intros [|c2 l2] a1 a2 Hlen H2 Ha;
    simplify_eq/=; [done|].
  apply Forall_cons in H2 as [Hc2 H2]. apply IH; [done..|].
  apply digit_value_le in Hc1, Hc2. lia.
Qed.

(** Among digit strings of one length, the smaller number sorts first,
    whatever follows the digits. *)
Lemma digits_lt_str_leb l1 l2 x y acc :
  length l1 = length l2 → Forall is_digit l1 → Forall is_digit l2 →
  (digits_value l1 acc < digits_value l2 acc)%nat →
  str_leb (l1 ++ x) (l2 ++ y) = true.
Proof.
  intros Hlen H1. revert l2 acc Hlen.
  induction H1 as [|c1 l1 Hc1 H1 IH]; intros [|c2 l2] acc Hlen H2 Hlt;
    simplify_eq/=; [unfold digits_value in Hlt; simpl in Hlt; lia|].
  apply Forall_cons in H2 as [Hc2 H2].
  apply orb_true_iff.
  destruct (N.lt_trichotomy c1 c2) as [Hc|[->|Hc]].
  - left. by apply N.ltb_lt.
  - right. rewrite N.eqb_refl. simpl. eapply IH; eauto.
  - exfalso. unfold digits_value in Hlt. simpl in Hlt.
    assert (digits_value l2 (10 * acc + N.to_nat (c2 - 48))
            < digits_value l1 (10 * acc + N.to_nat (c1 - 48)))%nat as Hgt.
    { apply digits_value_mono; [done..|]. unfold is_digit in *. lia. }
    unfold digits_value in Hgt. simpl in *. lia.
Qed.

Lemma format_04d_width n : (n < 10000)%nat → length (format_04d n) = 4%nat.
Proof.
  intros Hn.
  assert (forallb (fun k => (length (format_04d k) =? 4)%nat) (seq 0 10000) = true) as Hall
    by (by vm_compute).
  rewrite forallb_forall in Hall. apply Nat.eqb_eq, Hall, in_seq. lia.
Qed.

Lemma numbered_title_order n1 t1 n2 t2 x y :
  (n1 < n2 < 10000)%nat →
  str_le (numbered_title n1 t1 ++ x) (numbered_title n2 t2 ++ y).
Proof.
  intros Hn. unfold str_le, numbered_title. apply Is_true_true.
  rewrite <- !app_assoc.
  apply (digits_lt_str_leb _ _ _ _ 0).
  - rewrite !format_04d_width; [done|lia..].
  - apply format_04d_digits.
  - apply format_04d_digits.
  - rewrite !format_04d_value. lia.
Qed.

(** * A run on an empty output directory, end to end *)

Lemma elem_of_successes envs disks i tasks s :
  s ∈ successes envs disks i tasks
  ↔ ∃ j, tasks !! j = Some s.1 ∧
         good_reply (envs (i + j)%nat) (disks (i + j)%nat) = Some s.2.
Proof.
  revert i. induction tasks as [|t tasks IH]; intros i; simpl.
  - split; [by intros ?%elem_of_nil|by intros (j & ? & _)].
  - assert (s ∈ successes envs disks (S i) tasks
            ↔ ∃ j, tasks !! j = Some s.1 ∧
                   good_reply (envs (i + S j)%nat) (disks (i + S j)%nat) = Some s.2)
      as Htail.
    { rewrite IH. by setoid_rewrite Nat.add_succ_r. }
    split.
    + intros Hin.
      assert (s ∈ successes envs disks (S i) tasks
              ∨ (s.1 = t ∧ good_reply (envs i) (disks i) = Some s.2))
        as [(j & ? & ?)%Htail|[<- Hg]].
      { destruct (good_reply (envs i) (disks i)) as [c|]; [|by left].
        apply elem_of_cons in Hin as [->|?]; [by right|by left]. }
      * exists (S j). eauto.
      * exists 0%nat. by rewrite Nat.add_0_r.
    + intros ([|j] & Ht & Hg).
      * rewrite Nat.add_0_r in Hg. simpl in Ht. injection Ht as ->.
        rewrite Hg. destruct s. by left.
      * assert (s ∈ successes envs disks (S i) tasks) by (apply Htail; eauto).
        destruct (good_reply (envs i) (disks i)); [by right|done].
Qed.

Lemma successes_increasing envs disks i n cs :
  StronglySorted (fun s1 s2 => (task_chapter_num s1.1 < task_chapter_num s2.1)%nat)
    (successes envs disks i (number_from n cs)) ∧
  Forall (fun s => (n < task_chapter_num s.1 ≤ n + length cs)%nat)
    (successes envs disks i (number_from n cs)).
Proof.
  revert i n. induction cs as [|c cs IH]; intros i n; simpl.
  - split; constructor.
  - destruct (IH (S i) (S n)) as [Hs Hb].
    assert (Forall (fun s => (n < task_chapter_num s.1 ≤ n + S (length cs))%nat)
              (successes envs disks (S i) (number_from (S n) cs))) as Hb'
      by (eapply Forall_impl; [exact Hb|]; simpl; intros; lia).
    destruct (good_reply (envs i) (disks i)); [|done]. split.
    + constructor; [done|]. eapply Forall_impl; [exact Hb|]. simpl. intros. lia.
    + constructor; [simpl; lia|done].
Qed.

(** On a disk where no write raises once the file is open, the files that
    differ after the joint wait are those of the workers that stored. *)
Lemma gather_changed envs disks i tasks fs rs fs' p :
  (∀ j a kept, disks j a ≠ WriteRaises kept) →
  gather envs disks i tasks fs = (rs, fs') →
  text_files fs' !! p ≠ text_files fs !! p →
  ∃ s, s ∈ successes envs disks i tasks ∧
       p = output_path (task_chapter_num s.1) (task_title s.1).
Proof.
  intros Hno. revert i fs rs fs'.
  induction tasks as [|t tasks IH]; intros i fs rs fs'; simpl.
  - by intros [= <- <-].
  - rewrite call_openai_format_first_good, debris_None by apply Hno.
    change (first_good (envs i) (disks i) DEFAULT_MAX_RETRIES 1)
      with (good_reply (envs i) (disks i)).
    destruct (good_reply (envs i) (disks i)) as [c|].
    + destruct (gather envs disks (S i) tasks _) as [rs' fs2] eqn:Hg.
      intros [= <- <-] Hp.
      destruct (decide (text_files fs2 !! p
                        = text_files
                            (write_text (output_path (task_chapter_num t) (task_title t))
                               (task_title t ++ [LF; LF] ++ strip c) fs) !! p))
        as [Heq|Hne].
      * exists (t, c). split; [by left|].
        destruct (decide (p = output_path (task_chapter_num t) (task_title t)))
          as [|Hother]; [done|].
        destruct Hp. etrans; [exact Heq|]. simpl. by rewrite lookup_insert_ne.
      * destruct (IH _ _ _ _ Hg Hne) as (s & ? & ?). exists s. split; [by right|done].
    + destruct (gather envs disks (S i) tasks fs) as [rs' fs2] eqn:Hg.
      intros [= <- <-] Hp. eauto.
Qed.

Lemma startswith_app q r : startswith (q ++ r) q = true.
Proof. induction q as [|c q IH]; simpl; [by destruct r|]. by rewrite N.eqb_refl. Qed.

Lemma endswith_app x p : endswith (x ++ p) p = true.
Proof. unfold endswith. rewrite rev_app_distr. apply startswith_app. Qed.

Lemma first_component_id s : SLASH ∉ s → first_component s = s.
Proof.
  induction s as [|c s IH]; intros Hs; [done|]. simpl.
  destruct (c =? SLASH) eqn:Hc.
  - apply N.eqb_eq in Hc as ->. destruct Hs. by left.
  - rewrite IH; [done|]. intros ?. apply Hs. by right.
Qed.

Lemma file_name_no_slash s : SLASH ∉ task_title s.1 → SLASH ∉ file_name s.
Proof.
  intros Ht. unfold file_name, numbered_title.
  rewrite !elem_of_app. intros [[Hd|[Hsp|?]]|Hext]; [| |done|].
  - pose proof (format_04d_digits (task_chapter_num s.1)) as Hall.
    rewrite Forall_forall in Hall. apply Hall in Hd. unfold is_digit, SLASH in Hd. lia.
  - by apply list_elem_of_singleton in Hsp.
  - revert Hext. apply (bool_decide_unpack _). by vm_compute.
Qed.

Lemma output_path_file_name s :
  output_path (task_chapter_num s.1) (task_title s.1)
  = (OUTPUT_DIR ++ [SLASH]) ++ file_name s.
Proof.
  rewrite output_path_eq. unfold file_name, numbered_title.
  by rewrite <- !app_assoc.
Qed.

Lemma entry_of_output_path s :
  SLASH ∉ task_title s.1 →
  entry_of OUTPUT_DIR (output_path (task_chapter_num s.1) (task_title s.1))
  = Some (file_name s).
Proof.
  intros Ht. unfold entry_of.
  rewrite output_path_file_name, strip_prefix_app. simpl.
  by rewrite first_component_id by by apply file_name_no_slash.
Qed.

Lemma read_entry_stored fs (name h c : pystr) :
  endswith name (py ".txt") = true →
  LF ∉ strip h → CR ∉ strip h →
  text_files fs !! os_path_join OUTPUT_DIR name = Some (strip h ++ [LF; LF] ++ c) →
  read_entry fs name
  = Some [drop 4 (strip h) ++ [LF] ++ strip (universal_newlines c) ++ [LF]].
Proof.
  intros Hext Hlf Hcr Hfile. unfold read_entry, read_text.
  rewrite Hext. unfold pystr, pychar in *. rewrite Hfile. simpl.
  rewrite universal_newlines_app by done.
  change (universal_newlines (LF :: LF :: c)) with (LF :: LF :: universal_newlines c).
  rewrite readlines_first_line by done.
  change (readlines (LF :: universal_newlines c))
    with ([LF] :: readlines (universal_newlines c)).
  cbn [lookup list_lookup drop]. simpl.
  destruct (strip_ends h) as [Hl Hr].
  by rewrite drop_0, strip_title_line, concat_readlines.
Qed.

Lemma mapM_singletons {A B C} (f : B → option (list C)) (g : A → B) (b : A → C) l :
  (∀ x, x ∈ l → f (g x) = Some [b x]) →
  mapM f (map g l) = Some (map (fun x => [b x]) l).
Proof.
  induction l as [|x l IH]; intros H; [done|].
  simpl. rewrite (H x) by (by left). simpl.
  rewrite IH by (intros y Hy; apply H; by right). done.
Qed.

Lemma concat_singletons {A C} (b : A → C) l : concat (map (fun x => [b x]) l) = map b l.
Proof. induction l as [|x l IH]; simpl; [done|]. by rewrite IH. Qed.

Lemma scheduled_source cap cp segs i t :
  number_from 0 (limit cap 0 (pending cp segs)) !! i = Some t →
  (S i ≤ length segs)%nat ∧ ∃ hb, hb ∈ segs ∧ task_title t = strip hb.1.
Proof.
  intros Ht. pose proof Ht as Hlt%lookup_lt_Some.
  rewrite number_from_length in Hlt.
  apply scheduled_task in Ht as (_ & Hc & _).
  assert (length (limit cap 0 (pending cp segs)) ≤ length segs)%nat.
  { transitivity (length (pending cp segs)).
    - unfold limit. destruct cap as [m|]; [|done].
      destruct (m =? 0)%Z; [done|]. rewrite length_take. lia.
    - unfold pending. rewrite length_filter, length_map. done. }
  split; [lia|].
  apply list_elem_of_lookup_2, limit_sublist in Hc.
  unfold pending in Hc. apply list_elem_of_filter in Hc as [_ Hc].
  apply list_elem_of_fmap in Hc as (hb & Heq & Hin).
  exists hb. split; [done|]. unfold chapter_of in Heq. by injection Heq as -> _.
Qed.

Lemma file_names_sorted l :
  StronglySorted (fun s1 s2 => (task_chapter_num s1.1 < task_chapter_num s2.1)%nat) l →
  Forall (fun s => (task_chapter_num s.1 < 10000)%nat) l →
  StronglySorted str_le (map file_name l) ∧ NoDup (map file_name l).
Proof.
  induction 1 as [|s l Hl IH Hs]; intros Hb; [split; constructor|].
  apply Forall_cons in Hb as [Hb1 Hb]. destruct (IH Hb) as [IHs IHn].
  rewrite Forall_forall in Hs, Hb. split.
  - simpl. constructor; [done|]. apply Forall_forall.
    intros n (s' & -> & Hs')%list_elem_of_fmap.
    apply numbered_title_order. split; [by apply Hs|by apply Hb].
  - simpl. constructor; [|done].
    intros (s' & Heq & Hs')%list_elem_of_fmap.
    assert (output_path (task_chapter_num s.1) (task_title s.1)
            = output_path (task_chapter_num s'.1) (task_title s'.1)) as Hp
      by (by rewrite !output_path_file_name, Heq).
    apply output_path_inj in Hp. specialize (Hs _ Hs'). lia.
Qed.

Lemma already_sorted l : StronglySorted str_le l → sorted l = l.
Proof.
  intros Hl. unfold sorted.
  apply (Sorted_unique str_le).
  - apply Sorted_merge_sort. apply _.
  - by apply StronglySorted_Sorted.
  - apply merge_sort_Permutation.
Qed.

(** X17.  A run that starts with nothing in the output directory, on a
    document of fewer than 10000 chapters whose titles hold no slash and no
    line break, and on a disk where no write raises once the file is open
    ([open] may raise), ends with the consolidated file built: one block
    per worker that stored a reply, in document order, each the title
    without its first four characters, a line feed, the trimmed reply, a
    line feed and an empty line.  Chapters whose worker failed are
    absent. *)
Theorem fresh_run_consolidates_in_order cap pre segs envs disks fs :
  (∀ path, is_Some (text_files fs !! path) → entry_of OUTPUT_DIR path = None) →
  (∀ j a kept, disks j a ≠ WriteRaises kept) →
  (∀ hb, hb ∈ segs →
     (SLASH ∉ strip hb.1) ∧ (LF ∉ strip hb.1) ∧ (CR ∉ strip hb.1)) →
  (length segs < 10000)%nat →
  ∃ tasks fs',
    schedule cap (load_checkpoint fs) (split_parts pre segs) = Some tasks ∧
    split_and_process_async cap (split_parts pre segs) envs disks fs = Some fs' ∧
    text_files fs' !! TSV_FILE
    = Some (tsv_text (map block (successes envs disks 0 tasks))).
Proof.
  intros Hempty Hno Htitles Hlen.
  remember (number_from 0 (limit cap 0 (pending (load_checkpoint fs) segs))) as tasks
    eqn:Htasks.
  destruct (gather envs disks 0 tasks fs) as [results fs1] eqn:Hg.
  assert (∀ s, s ∈ successes envs disks 0 tasks →
            (task_chapter_num s.1 < 10000)%nat ∧
            (∃ hb, hb ∈ segs ∧ task_title s.1 = strip hb.1) ∧
            text_files fs1 !! output_path (task_chapter_num s.1) (task_title s.1)
              = Some (task_title s.1 ++ [LF; LF] ++ strip s.2)) as Hsucc.
  { intros s (j & Ht & Hgood)%elem_of_successes. simpl in Hgood.
    pose proof Ht as Ht'. rewrite Htasks in Ht'.
    pose proof Ht' as (Hnum & _)%scheduled_task.
    apply scheduled_source in Ht' as (Hj & Hsrc).
    split; [lia|]. split; [done|].
    apply good_reply_succeeds in Hgood as (k & Hk & Hmax).
    eapply gather_success_file; eauto.
    intros j' t'. rewrite Htasks. intros (Hj' & _)%scheduled_task Hp%output_path_inj. lia. }
  assert (∀ s, s ∈ successes envs disks 0 tasks →
            (SLASH ∉ task_title s.1) ∧ ∃ h, task_title s.1 = strip h ∧
              (LF ∉ strip h) ∧ (CR ∉ strip h)) as Hclean.
  { intros s (_ & (hb & Hin & Heq) & _)%Hsucc.
    destruct (Htitles hb Hin) as (? & ? & ?). rewrite Heq. eauto. }
  destruct (file_names_sorted (successes envs disks 0 tasks)) as [Hsorted Hnodup].
  { rewrite Htasks. apply successes_increasing. }
  { apply Forall_forall. intros s Hs. by apply Hsucc. }
  assert (∀ saved, os_listdir OUTPUT_DIR (save_checkpoint saved fs1)
                     (map file_name (successes envs disks 0 tasks))) as Hlist.
  { intros saved. split; [done|]. intros n. simpl. split.
    - intros (s & -> & Hs)%list_elem_of_fmap.
      exists (output_path (task_chapter_num s.1) (task_title s.1)). split.
      + destruct (Hsucc s Hs) as (_ & _ & Hfile). eexists. exact Hfile.
      + apply entry_of_output_path. by apply Hclean.
    - intros (path & Hsome & Hentry).
      destruct (decide (text_files fs1 !! path = text_files fs !! path)) as [Heq|Hne].
      + rewrite Heq in Hsome. apply Hempty in Hsome. congruence.
      + apply (gather_changed _ _ _ _ _ _ _ _ Hno Hg) in Hne as (s & Hs & ->).
        rewrite entry_of_output_path in Hentry by by apply Hclean.
        injection Hentry as <-. by apply list_elem_of_fmap_2. }
  exists tasks. eexists. split; [rewrite Htasks; apply schedule_spec|].
  unfold split_and_process_async, process_chapters.
  rewrite schedule_spec, <- Htasks. simpl. rewrite Hg. simpl.
  unfold regenerate_tsv_from_output.
  rewrite (sorted_Permutation _ (map file_name (successes envs disks 0 tasks)))
    by (eapply os_listdir_Permutation; [apply listdir_os_listdir|apply Hlist]).
  rewrite already_sorted by done.
  rewrite (mapM_singletons _ file_name block).
  - simpl. split; [done|]. rewrite concat_singletons. apply lookup_insert_eq.
  - intros s Hs. destruct (Hclean s Hs) as (_ & h & Hh & Hlf & Hcr).
    destruct (Hsucc s Hs) as (_ & _ & Hfile).
    unfold block. rewrite Hh.
    apply read_entry_stored; [apply endswith_app|done..|].
    rewrite <- Hh. exact Hfile.
Qed.

Lemma example_run_consolidated :
  ∃ fs',
    split_and_process_async MAX_CHAPTERS example_parts first_fails always_written
      empty_fs = Some fs' ∧
    text_files fs' !! TSV_FILE = Some (py "终（尾）
甲

").
Proof.
  destruct (fresh_run_consolidates_in_order MAX_CHAPTERS [] example_segments
              first_fails always_written empty_fs) as (tasks & fs' & Hs & Hrun & Htsv).
  - intros path [v Hv]. simpl in Hv. by rewrite lookup_empty in Hv.
  - intros j a kept. unfold always_written. discriminate.
  - intros hb Hin. unfold example_segments in Hin.
    apply elem_of_cons in Hin as [->|Hin];
      [|apply elem_of_cons in Hin as [->|Hin]; [|by apply elem_of_nil in Hin]];
      split_and!; apply (bool_decide_unpack _); by vm_compute.
  - apply Nat.ltb_lt. by vm_compute.
  - exists fs'. split; [exact Hrun|]. rewrite Htsv.
    rewrite schedule_spec in Hs. injection Hs as <-. by vm_compute.
Defined.
